(** * The chain-history pruner of core/pruner.go

    A shallow embedding of [core/pruner.go]: the range calculator
    [calculateNumOfPrunedBlocks], the constructor [NewBasicPruner], the
    key collector [Prune], the cross-bucket cursor [limitIterator] and the
    batch driver [batchDelete], together with one prune tick of
    [pruningLoop].

    Go's [uint64] and [int] are [Z] with the wrap-around written out, a
    [[]byte] is a [list byte], a Go [error] is an [option error] ([None] is
    [nil]).  The store, the decoders and the bucket names live in packages
    that are not part of this file's source ([ethdb], [changeset],
    [dbutils]); they are taken as parameters (type classes). *)

From Stdlib Require Import ZArith List String Bool Lia QArith.
From Stdlib.Strings Require Import Byte.
Import ListNotations.
Local Open Scope Z_scope.

Set Implicit Arguments.

(** ** Machine integers *)

Module U64.

Definition modulus : Z := 2 ^ 64.

(** A value of Go's [uint64]. *)
Definition in_range (z : Z) : Prop := 0 <= z < modulus.

Definition wrap (z : Z) : Z := z mod modulus.

(** [a - b] on [uint64]: the wrapped value, and whether it borrowed. *)
Definition sub (a b : Z) : Z * bool := (wrap (a - b), a <? b).

(** [a + b] on [uint64]: the wrapped value, and whether it carried. *)
Definition add (a b : Z) : Z * bool := (wrap (a + b), modulus <=? a + b).

End U64.

Module Int.

(** Go's [int] on a 64-bit platform. *)
Definition min_int : Z := - 2 ^ 63.
Definition max_int : Z := 2 ^ 63 - 1.

Definition in_range (z : Z) : Prop := min_int <= z <= max_int.

Definition wrap (z : Z) : Z := (z + 2 ^ 63) mod 2 ^ 64 - 2 ^ 63.

End Int.

(** ** Byte strings, errors, results *)

Definition bytes : Type := list byte.

(** [type Keys [][]byte] *)
Definition Keys : Type := list bytes.

(** The errors this file can see: the one [NewBasicPruner] builds with
    [fmt.Errorf], and the errors handed over by the store. *)
Inductive error : Type :=
| ErrIncorrectConfig (blocksToPrune : Z) (seconds : Q)
| ErrStore (msg : string).

(** What running a piece of the program gives: a value, a Go run-time
    panic (an index out of range), or no answer within the fuel. *)
Inductive result (A : Type) : Type :=
| Ok (a : A)
| Panic
| OutOfFuel.

Arguments Ok {A} a.
Arguments Panic {A}.
Arguments OutOfFuel {A}.

Definition bind {A B : Type} (r : result A) (f : A -> result B) : result B :=
  match r with
  | Ok a => f a
  | Panic => Panic
  | OutOfFuel => OutOfFuel
  end.

Notation "x <- r ;; f" := (bind r (fun x => f))
  (at level 61, r at next level, right associativity).

(** [s[i]] on a Go slice: a panic outside [0 <= i < len(s)]. *)
Definition index {A : Type} (s : list A) (i : Z) : result A :=
  if i <? 0 then Panic
  else match nth_error s (Z.to_nat i) with
       | Some a => Ok a
       | None => Panic
       end.

(** [len(s)], a Go [int]. *)
Definition len {A : Type} (s : list A) : Z := Z.of_nat (List.length s).

(** ** RangeCalculator: [calculateNumOfPrunedBlocks] *)

Definition calculateNumOfPrunedBlocks
    (currentBlock lastPrunedBlock blocksBeforePruning blocksBatch : Z)
    : Z * Z * bool :=
  if currentBlock <=? lastPrunedBlock then
    (lastPrunedBlock, lastPrunedBlock, false)
  else
    let diff := U64.wrap (currentBlock - lastPrunedBlock) in
    if diff <=? blocksBeforePruning then
      (lastPrunedBlock, lastPrunedBlock, false)
    else
      let diff := U64.wrap (diff - blocksBeforePruning) in
      if diff >=? blocksBatch then
        (lastPrunedBlock, U64.wrap (lastPrunedBlock + blocksBatch), true)
      else if diff <? blocksBatch then
        (lastPrunedBlock, U64.wrap (lastPrunedBlock + diff), true)
      else
        (lastPrunedBlock, lastPrunedBlock, false).

(** The same function with every [uint64] subtraction and addition it
    executes instrumented: the second component tells whether one of them
    wrapped. *)
Definition calculateNumOfPrunedBlocks_traced
    (currentBlock lastPrunedBlock blocksBeforePruning blocksBatch : Z)
    : (Z * Z * bool) * bool :=
  if currentBlock <=? lastPrunedBlock then
    ((lastPrunedBlock, lastPrunedBlock, false), false)
  else
    let '(diff, w1) := U64.sub currentBlock lastPrunedBlock in
    if diff <=? blocksBeforePruning then
      ((lastPrunedBlock, lastPrunedBlock, false), w1)
    else
      let '(diff', w2) := U64.sub diff blocksBeforePruning in
      if diff' >=? blocksBatch then
        let '(to, w3) := U64.add lastPrunedBlock blocksBatch in
        ((lastPrunedBlock, to, true), w1 || w2 || w3)
      else if diff' <? blocksBatch then
        let '(to, w3) := U64.add lastPrunedBlock diff' in
        ((lastPrunedBlock, to, true), w1 || w2 || w3)
      else
        ((lastPrunedBlock, lastPrunedBlock, false), w1 || w2).

(** ** Configuration and construction: [NewBasicPruner] *)

Module Duration.

(** [time.Duration]: a count of nanoseconds, an [int64]. *)
Definition Second : Z := 1000000000.

(** [Duration.Seconds]: [sec := d / Second; nsec := d % Second;
    float64(sec) + float64(nsec)/1e9], Go's [/] and [%] truncating
    towards zero.  The [float64] is read as the rational it rounds. *)
Definition Seconds (d : Z) : Q :=
  (inject_Z (Z.quot d Second) + (Z.rem d Second # 1000000000))%Q.

End Duration.

(** The fields of [CacheConfig] the pruner reads. *)
Record CacheConfig : Type := {
  BlocksBeforePruning : Z;
  BlocksToPrune : Z;
  PruneTimeout : Z
}.

(** [make(chan struct{}, n)]: the capacity and the number of queued
    signals. *)
Record chan : Type := {
  chan_cap : nat;
  chan_queued : nat
}.

Definition make_chan (n : nat) : chan := {| chan_cap := n; chan_queued := 0 |}.

(** [sync.WaitGroup]: its counter. *)
Definition WaitGroup : Type := Z.

Record BasicPruner (DB Chain : Type) : Type := {
  wg : WaitGroup;
  stop : chan;
  db : DB;
  chain : Chain;
  LastPrunedBlockNum : Z;
  config : CacheConfig
}.

(** [x < 1] on the seconds of a duration. *)
Definition Qltb (x y : Q) : bool := negb (Qle_bool y x).

Definition NewBasicPruner {DB Chain : Type}
    (database : DB) (chainer : Chain) (cfg : CacheConfig)
    : option (BasicPruner DB Chain) * option error :=
  if (BlocksToPrune cfg =? 0) || Qltb (Duration.Seconds (PruneTimeout cfg)) 1 then
    (None, Some (ErrIncorrectConfig (BlocksToPrune cfg)
                                    (Duration.Seconds (PruneTimeout cfg))))
  else
    (Some {| wg := 0;
             stop := make_chan 1;
             db := database;
             chain := chainer;
             LastPrunedBlockNum := 0;
             config := cfg |},
     None).

(** ** Collaborators that are not in this file's source *)

(** The bucket names of package [dbutils] that the pruner uses, and its
    [CompositeKeySuffix]; the pruner keeps only the first result of the
    latter (the composite key). *)
Class Dbutils : Type := {
  AccountsHistoryBucket : string;
  StorageHistoryBucket : string;
  HashedStorageBucket : string;
  PlainAccountChangeSetBucket : string;
  PlainStorageChangeSetBucket : string;
  CompositeKeySuffix : bytes -> Z -> bytes
}.

(** The five names in the order [LimitIterator] lists them. *)
Definition bucketNames `{Dbutils} : list string :=
  [AccountsHistoryBucket; StorageHistoryBucket; HashedStorageBucket;
   PlainAccountChangeSetBucket; PlainStorageChangeSetBucket].

(** The names are five different strings, none of them empty. *)
Definition distinctBuckets `{Dbutils} : Prop :=
  NoDup (EmptyString :: bucketNames).

(** Modelled from the spec: the per-bucket decoder
    [changeset.Mapper[bucket].Decode], which is not in this file's source:
    [decode(rawKey, rawValue) -> (timestamp, subjectKey, error)]. *)
Class Changeset : Type := {
  Mapper_Decode : string -> bytes -> bytes -> Z * bytes * option error
}.

(** What the store's cursor hands to a walk, entry after entry in ascending
    key order: an entry, or a failed read. *)
Inductive cursorItem : Type :=
| Entry (key value : bytes)
| ReadError (e : error).

(** Modelled from the spec: the store [ethdb.Database], which is not in
    this file's source: an ordered scan per bucket, and write batches made
    of deletes that are committed as a whole. *)
Class Database (DB : Type) : Type := {
  MutBatch : Type;
  bucketCursor : DB -> string -> list cursorItem;
  NewBatch : DB -> MutBatch;
  Delete : MutBatch -> string -> bytes -> MutBatch * option error;
  Commit : DB -> MutBatch -> DB * option error
}.

(** The callback of a walk, over the state [S] its closure captures:
    the new state, whether to continue, and an error. *)
Definition walker (S : Type) : Type := S -> bytes -> bytes -> S * bool * option error.

(** Modelled from the spec: [walk(bucket, startKey, startOffset, visit)], an
    ascending ordered scan that stops early when [visit] returns
    [continue = false], or with the first error. *)
Fixpoint walkItems {S : Type} (visit : walker S) (items : list cursorItem) (s : S)
    : S * option error :=
  match items with
  | [] => (s, None)
  | ReadError e :: _ => (s, Some e)
  | Entry key v :: rest =>
      let '(s', goOn, err) := visit s key v in
      match err with
      | Some e => (s', Some e)
      | None => if goOn then walkItems visit rest s' else (s', None)
      end
  end.

Definition Walk {DB : Type} `{Database DB} {S : Type}
    (d : DB) (bucketName : string) (visit : walker S) (s : S) : S * option error :=
  walkItems visit (bucketCursor d bucketName) s.

(** A walker that also notes every entry it is called on. *)
Definition recording {S : Type} (visit : walker S) : walker (S * list (bytes * bytes)) :=
  fun st key v =>
    let '(s', goOn, err) := visit (fst st) key v in
    ((s', snd st ++ [(key, v)]), goOn, err).

(** The entries of [items] a walk calls [visit] on, in order. *)
Definition visited {S : Type} (visit : walker S) (items : list cursorItem) (s : S)
    : list (bytes * bytes) :=
  snd (fst (walkItems (recording visit) items (s, []))).

(** ** KeyCollector: [keysToRemove] *)

Record keysToRemove : Type := {
  AccountHistoryKeys : Keys;
  StorageHistoryKeys : Keys;
  AccountChangeSet : Keys;
  StorageChangeSet : Keys;
  StorageKeys : Keys;
  IntermediateTrieHashKeys : Keys
}.

Definition newKeysToRemove : keysToRemove :=
  {| AccountHistoryKeys := [];
     StorageHistoryKeys := [];
     AccountChangeSet := [];
     StorageChangeSet := [];
     StorageKeys := [];
     IntermediateTrieHashKeys := [] |}.

(** [common.CopyBytes] *)
Definition CopyBytes (b : bytes) : bytes := b.

(** The closure [Prune] walks [PlainAccountChangeSetBucket] with. *)
Definition accountWalker `{Dbutils} `{Changeset} (blockNumFrom blockNumTo : Z)
    : walker keysToRemove :=
  fun keys key v =>
    let '(timestamp, parsedK, _) := Mapper_Decode PlainAccountChangeSetBucket key v in
    if timestamp <? blockNumFrom then (keys, true, None)
    else if timestamp >? blockNumTo then (keys, false, None)
    else
      let compKey := CompositeKeySuffix parsedK timestamp in
      ({| AccountHistoryKeys := AccountHistoryKeys keys ++ [compKey];
          StorageHistoryKeys := StorageHistoryKeys keys;
          AccountChangeSet := AccountChangeSet keys ++ [CopyBytes key];
          StorageChangeSet := StorageChangeSet keys;
          StorageKeys := StorageKeys keys;
          IntermediateTrieHashKeys := IntermediateTrieHashKeys keys |},
       true, None).

(** The closure [Prune] walks [PlainStorageChangeSetBucket] with. *)
Definition storageWalker `{Dbutils} `{Changeset} (blockNumFrom blockNumTo : Z)
    : walker keysToRemove :=
  fun keys key v =>
    let '(timestamp, parsedK, _) := Mapper_Decode PlainStorageChangeSetBucket key v in
    if timestamp <? blockNumFrom then (keys, true, None)
    else if timestamp >? blockNumTo then (keys, false, None)
    else
      ({| AccountHistoryKeys := AccountHistoryKeys keys;
          StorageHistoryKeys := StorageHistoryKeys keys;
          AccountChangeSet := AccountChangeSet keys;
          StorageChangeSet := StorageChangeSet keys ++ [CopyBytes key];
          StorageKeys := StorageKeys keys;
          IntermediateTrieHashKeys := IntermediateTrieHashKeys keys |},
       true, None).

(** The first half of [Prune]: the two walks, the second one only when the
    first returned no error. *)
Definition collectKeys {DB : Type} `{Database DB} `{Dbutils} `{Changeset}
    (d : DB) (blockNumFrom blockNumTo : Z) : keysToRemove * option error :=
  let '(keys1, err) :=
    Walk d PlainAccountChangeSetBucket (accountWalker blockNumFrom blockNumTo)
         newKeysToRemove in
  match err with
  | Some e => (keys1, Some e)
  | None =>
      Walk d PlainStorageChangeSetBucket (storageWalker blockNumFrom blockNumTo) keys1
  end.

(** *** What a scan is expected to see *)

(** The timestamp and the subject key the decoder of [bucketName] gives for
    an entry. *)
Definition timestampOf `{Changeset} (bucketName : string) (kv : bytes * bytes) : Z :=
  fst (fst (Mapper_Decode bucketName (fst kv) (snd kv))).

Definition subjectOf `{Changeset} (bucketName : string) (kv : bytes * bytes) : bytes :=
  snd (fst (Mapper_Decode bucketName (fst kv) (snd kv))).

(** The timestamp of the entry is in [[blockNumFrom, blockNumTo]]. *)
Definition inWindow `{Changeset} (bucketName : string) (blockNumFrom blockNumTo : Z)
    (kv : bytes * bytes) : bool :=
  (blockNumFrom <=? timestampOf bucketName kv)
  && (timestampOf bucketName kv <=? blockNumTo).

(** The history-index key of an account change-set entry. *)
Definition historyKeyOf `{Dbutils} `{Changeset} (kv : bytes * bytes) : bytes :=
  CompositeKeySuffix (subjectOf PlainAccountChangeSetBucket kv)
                     (timestampOf PlainAccountChangeSetBucket kv).

(** The entries of a bucket up to and including the first one whose
    timestamp is past [blockNumTo]. *)
Fixpoint upToFirstAfter `{Changeset} (bucketName : string) (blockNumTo : Z)
    (es : list (bytes * bytes)) : list (bytes * bytes) :=
  match es with
  | [] => []
  | e :: rest =>
      if blockNumTo <? timestampOf bucketName e then [e]
      else e :: upToFirstAfter bucketName blockNumTo rest
  end.

(** A bucket whose reads all succeed. *)
Definition entryItems (es : list (bytes * bytes)) : list cursorItem :=
  map (fun kv => Entry (fst kv) (snd kv)) es.

(** Ascending timestamps, as the key order of a change-set bucket gives. *)
Fixpoint ascending `{Changeset} (bucketName : string) (es : list (bytes * bytes)) : Prop :=
  match es with
  | [] => True
  | e :: rest =>
      Forall (fun e' => timestampOf bucketName e <= timestampOf bucketName e') rest
      /\ ascending bucketName rest
  end.

(** What the account callback does with an entry in the window, and
    what the storage callback does. *)
Definition collectAccount `{Dbutils} `{Changeset} (ks : keysToRemove)
    (kv : bytes * bytes) : keysToRemove :=
  {| AccountHistoryKeys := AccountHistoryKeys ks ++ [historyKeyOf kv];
     StorageHistoryKeys := StorageHistoryKeys ks;
     AccountChangeSet := AccountChangeSet ks ++ [fst kv];
     StorageChangeSet := StorageChangeSet ks;
     StorageKeys := StorageKeys ks;
     IntermediateTrieHashKeys := IntermediateTrieHashKeys ks |}.

Definition collectStorage (ks : keysToRemove) (kv : bytes * bytes) : keysToRemove :=
  {| AccountHistoryKeys := AccountHistoryKeys ks;
     StorageHistoryKeys := StorageHistoryKeys ks;
     AccountChangeSet := AccountChangeSet ks;
     StorageChangeSet := StorageChangeSet ks ++ [fst kv];
     StorageKeys := StorageKeys ks;
     IntermediateTrieHashKeys := IntermediateTrieHashKeys ks |}.

(** A callback keeps the window [[blockNumFrom, blockNumTo]] of a bucket:
    it skips what is before the window, collects what is in it and stops
    at what is past it; so a walk over a bucket that reads without failure
    visits the entries up to and including the first one past the window
    and collects those of them that are in the window, which in an
    ascending bucket are all the entries of the window. *)
Definition scansWindow `{Changeset} (bucketName : string) (blockNumFrom blockNumTo : Z)
    (visit : walker keysToRemove)
    (collect : keysToRemove -> bytes * bytes -> keysToRemove) : Prop :=
  (forall (ks : keysToRemove) (key v : bytes),
      let ts := timestampOf bucketName (key, v) in
      (ts < blockNumFrom -> visit ks key v = (ks, true, None)) /\
      (blockNumTo < ts -> visit ks key v = (ks, false, None)) /\
      (blockNumFrom <= ts <= blockNumTo ->
       visit ks key v = (collect ks (key, v), true, None))) /\
  (forall (es : list (bytes * bytes)) (ks : keysToRemove),
      visited visit (entryItems es) ks = upToFirstAfter bucketName blockNumTo es /\
      walkItems visit (entryItems es) ks =
        (fold_left collect
           (filter (inWindow bucketName blockNumFrom blockNumTo)
                   (upToFirstAfter bucketName blockNumTo es)) ks,
         None) /\
      (ascending bucketName es ->
       fst (walkItems visit (entryItems es) ks) =
         fold_left collect (filter (inWindow bucketName blockNumFrom blockNumTo) es) ks)) /\
  (forall es : list (bytes * bytes),
      (upToFirstAfter bucketName blockNumTo es = es /\
       Forall (fun e => timestampOf bucketName e <= blockNumTo) es)
      \/
      (exists pre e post,
          es = pre ++ e :: post /\
          upToFirstAfter bucketName blockNumTo es = pre ++ [e] /\
          Forall (fun e' => timestampOf bucketName e' <= blockNumTo) pre /\
          blockNumTo < timestampOf bucketName e)).

(** ** BoundedBatchDeleter: [limitIterator] *)

Definition DeleteLimit : Z := 70000.

Record Batch : Type := {
  bucket : string;
  keys : Keys
}.

Record limitIterator : Type := {
  k : keysToRemove;
  counter : Z;
  currentBucket : string;
  currentNum : Z;
  limit : Z;
  batches : list Batch
}.

Definition LimitIterator `{Dbutils} (ks : keysToRemove) (lim : Z) : limitIterator :=
  {| k := ks;
     counter := 0;
     currentBucket := EmptyString;
     currentNum := 0;
     limit := lim;
     batches :=
       [ {| bucket := AccountsHistoryBucket; keys := AccountHistoryKeys ks |};
         {| bucket := StorageHistoryBucket; keys := StorageHistoryKeys ks |};
         {| bucket := HashedStorageBucket; keys := StorageKeys ks |};
         {| bucket := PlainAccountChangeSetBucket; keys := AccountChangeSet ks |};
         {| bucket := PlainStorageChangeSetBucket; keys := StorageChangeSet ks |} ] |}.

(** [i.currentBucket = b; i.currentNum = n] *)
Definition moveTo (i : limitIterator) (b : string) (n : Z) : limitIterator :=
  {| k := k i;
     counter := counter i;
     currentBucket := b;
     currentNum := n;
     limit := limit i;
     batches := batches i |}.

Definition ResetLimit (i : limitIterator) : limitIterator :=
  {| k := k i;
     counter := 0;
     currentBucket := currentBucket i;
     currentNum := currentNum i;
     limit := limit i;
     batches := batches i |}.

(** The deferred function of [GetNext]: [i.currentNum++; i.counter++]. *)
Definition advance (i : limitIterator) : limitIterator :=
  {| k := k i;
     counter := U64.wrap (counter i + 1);
     currentBucket := currentBucket i;
     currentNum := Int.wrap (currentNum i + 1);
     limit := limit i;
     batches := batches i |}.

Definition HasMore (i : limitIterator) : result bool :=
  lastBatch <- index (batches i) (len (batches i) - 1) ;;
  Ok (if (currentBucket i =? bucket lastBatch)%string
         && (len (keys lastBatch) =? currentNum i)
      then false else true).

(** The [range] loop of [updateBucket], at [batchIndex] with [bs] still to
    come. *)
Fixpoint updateBucket_loop (bs : list Batch) (batchIndex : Z) (i : limitIterator)
    : result limitIterator :=
  match bs with
  | [] => Ok i
  | batch :: rest =>
      if batchIndex =? len (batches i) - 1 then Ok i
      else if (currentBucket i =? bucket batch)%string
              && (len (keys batch) =? currentNum i)
      then
        next <- index (batches i) (batchIndex + 1) ;;
        updateBucket_loop rest (batchIndex + 1) (moveTo i (bucket next) 0)
      else updateBucket_loop rest (batchIndex + 1) i
  end.

Definition updateBucket (i : limitIterator) : result limitIterator :=
  i1 <- (if (currentBucket i =? EmptyString)%string
         then first <- index (batches i) 0 ;;
              Ok (moveTo i (bucket first) (currentNum i))
         else Ok i) ;;
  updateBucket_loop (batches i1) 0 i1.

(** The [range] loop of [GetNext]. *)
Fixpoint GetNext_loop (bs : list Batch) (batchIndex : Z) (i : limitIterator)
    : result (bytes * string * bool) :=
  match bs with
  | [] => Ok ([], EmptyString, false)
  | batch :: rest =>
      if batchIndex =? len (batches i) - 1 then Ok ([], EmptyString, false)
      else if (currentBucket i =? bucket batch)%string then
        key <- index (keys batch) (currentNum i) ;;
        Ok (key, bucket batch, true)
      else GetNext_loop rest (batchIndex + 1) i
  end.

(** [GetNext]: the key, its bucket, [ok], and the iterator afterwards. *)
Definition GetNext (i : limitIterator) : result (bytes * string * bool * limitIterator) :=
  if limit i <=? currentNum i then Ok ([], EmptyString, false, i)
  else
    i1 <- updateBucket i ;;
    more <- HasMore i1 ;;
    if negb more then Ok ([], EmptyString, false, i1)
    else
      r <- GetNext_loop (batches i1) 0 i1 ;;
      Ok (r, advance i1).

(** ** BoundedBatchDeleter: [batchDelete] *)

(** One delete issued into a batch, with what the store answered. *)
Definition deleteCall : Type := (string * bytes * option error)%type.

(** What one round of [batchDelete] did: the deletes it issued in order,
    the warnings it logged, and the answer to its [Commit]. *)
Record roundLog : Type := {
  deletes : list deleteCall;
  warned : list (string * bytes * error);
  committed : option error
}.

(** The inner [for] of [batchDelete]. *)
Fixpoint deleteRound {DB : Type} `{Database DB} (fuel : nat) (i : limitIterator)
    (batch : MutBatch) (ds : list deleteCall) (ws : list (string * bytes * error))
    : result (limitIterator * MutBatch * list deleteCall * list (string * bytes * error)) :=
  match fuel with
  | O => OutOfFuel
  | S fuel' =>
      r <- GetNext i ;;
      let '(key, bucketKey, ok, i') := r in
      if negb ok then Ok (i', batch, ds, ws)
      else
        let '(batch', err) := Delete batch bucketKey key in
        match err with
        | Some e =>
            deleteRound fuel' i' batch' (ds ++ [(bucketKey, key, err)])
                        (ws ++ [(bucketKey, key, e)])
        | None =>
            deleteRound fuel' i' batch' (ds ++ [(bucketKey, key, err)]) ws
        end
  end.

(** The outer [for iterator.HasMore()] of [batchDelete]. *)
Fixpoint batchDelete_loop {DB : Type} `{Database DB} (fuel : nat) (i : limitIterator)
    (d : DB) (rounds : list roundLog) : result (DB * list roundLog * option error) :=
  match fuel with
  | O => OutOfFuel
  | S fuel' =>
      more <- HasMore i ;;
      if more then
        r <- deleteRound fuel' (ResetLimit i) (NewBatch d) [] [] ;;
        let '(i', batch, ds, ws) := r in
        let '(d', err) := Commit d batch in
        let round := {| deletes := ds; warned := ws; committed := err |} in
        match err with
        | Some e => Ok (d', rounds ++ [round], Some e)
        | None => batchDelete_loop fuel' i' d' (rounds ++ [round])
        end
      else Ok (d, rounds, None)
  end.

Definition batchDelete {DB : Type} `{Database DB} `{Dbutils} (fuel : nat)
    (d : DB) (ks : keysToRemove) : result (DB * list roundLog * option error) :=
  batchDelete_loop fuel (LimitIterator ks DeleteLimit) d [].

(** The keys one round of [batchDelete] takes from the iterator, with
    their buckets: [GetNext] until it answers [ok = false]. *)
Fixpoint roundKeys (fuel : nat) (i : limitIterator)
    : result (list (string * bytes) * limitIterator) :=
  match fuel with
  | O => OutOfFuel
  | S fuel' =>
      r <- GetNext i ;;
      let '(key, bucketKey, ok, i') := r in
      if negb ok then Ok ([], i')
      else
        r' <- roundKeys fuel' i' ;;
        Ok ((bucketKey, key) :: fst r', snd r')
  end.

(** Issuing one delete per key into a batch, whatever each delete
    answers. *)
Fixpoint issueDeletes {DB : Type} `{Database DB} (batch : MutBatch)
    (ys : list (string * bytes)) : MutBatch * list deleteCall :=
  match ys with
  | [] => (batch, [])
  | (bucketKey, key) :: rest =>
      let '(batch', err) := Delete batch bucketKey key in
      let '(batch'', calls) := issueDeletes batch' rest in
      (batch'', (bucketKey, key, err) :: calls)
  end.

(** The deletes that answered an error. *)
Definition failedDeletes (calls : list deleteCall) : list (string * bytes * error) :=
  flat_map (fun c => match snd c with
                     | Some e => [(fst (fst c), snd (fst c), e)]
                     | None => []
                     end) calls.

(** *** Positions of the cursor

    A position is the index of a group in the traversal order of
    [LimitIterator] and an offset in that group. *)

Definition group (ks : keysToRemove) (j : nat) : Keys :=
  match j with
  | 0%nat => AccountHistoryKeys ks
  | 1%nat => StorageHistoryKeys ks
  | 2%nat => StorageKeys ks
  | 3%nat => AccountChangeSet ks
  | _ => StorageChangeSet ks
  end.

Definition name `{Dbutils} (j : nat) : string := nth j bucketNames EmptyString.

(** The batch [LimitIterator] makes of group [j]. *)
Definition batchOf `{Dbutils} (ks : keysToRemove) (j : nat) : Batch :=
  {| bucket := name j; keys := group ks j |}.

(** The iterator over [ks] standing in group [j] at offset [c]. *)
Definition itAt `{Dbutils} (ks : keysToRemove) (lim cnt : Z) (j : nat) (c : Z)
    : limitIterator :=
  {| k := ks;
     counter := cnt;
     currentBucket := name j;
     currentNum := c;
     limit := lim;
     batches := batches (LimitIterator ks lim) |}.

(** Where [updateBucket] takes a position: past every group, but the
    last, that is exhausted at it. *)
Fixpoint settle (ks : keysToRemove) (idxs : list nat) (pos : nat * Z) : nat * Z :=
  match idxs with
  | [] => pos
  | idx :: rest =>
      if (fst pos =? idx)%nat && (len (group ks idx) =? snd pos)
      then settle ks rest (S idx, 0)
      else settle ks rest pos
  end.

Definition norm (ks : keysToRemove) (j : nat) (c : Z) : nat * Z :=
  settle ks [0; 1; 2; 3]%nat (j, c).

(** The keys of group [j] from offset [c] on, with the group's bucket. *)
Definition tagged `{Dbutils} (ks : keysToRemove) (j : nat) (c : Z)
    : list (string * bytes) :=
  map (fun key => (name j, key)) (skipn (Z.to_nat c) (group ks j)).

(** The keys from position [(j, c)] to the end of the last group but one,
    in traversal order. *)
Definition remaining `{Dbutils} (ks : keysToRemove) (j : nat) (c : Z)
    : list (string * bytes) :=
  if (j <? 4)%nat
  then tagged ks j c ++ flat_map (fun i => tagged ks i 0) (seq (S j) (3 - j))
  else [].

(** The offset in the last group after a round that went through all the
    groups before it: one step in when the last group has keys. *)
Definition endOffset (ks : keysToRemove) : Z :=
  if len (group ks 4) =? 0 then 0 else 1.

(** [n] rounds that take no key: each opens a batch and commits it
    empty, until a commit fails. *)
Fixpoint emptyRounds {DB : Type} `{Database DB} (n : nat) (d : DB)
    (rounds : list roundLog) : DB * list roundLog * option error :=
  match n with
  | O => (d, rounds, None)
  | S n' =>
      let '(d', err) := Commit d (NewBatch d) in
      let round := {| deletes := []; warned := []; committed := err |} in
      match err with
      | Some e => (d', rounds ++ [round], Some e)
      | None => emptyRounds n' d' (rounds ++ [round])
      end
  end.

(** ** [Prune] and one prune tick of [pruningLoop] *)

Definition Prune {DB : Type} `{Database DB} `{Dbutils} `{Changeset} (fuel : nat)
    (d : DB) (blockNumFrom blockNumTo : Z) : result (DB * list roundLog * option error) :=
  let '(keysToRemove, err) := collectKeys d blockNumFrom blockNumTo in
  match err with
  | Some e => Ok (d, [], Some e)
  | None => batchDelete fuel d keysToRemove
  end.

(** [*types.Block]: its number, a [*big.Int] that can be [nil]. *)
Record Block : Type := {
  Number : option Z
}.

(** [big.Int.Uint64] *)
Definition Uint64 (x : Z) : Z := U64.wrap x.

Definition setPruned {DB Chain : Type} (p : BasicPruner DB Chain) (d : DB) (num : Z)
    : BasicPruner DB Chain :=
  {| wg := wg p;
     stop := stop p;
     db := d;
     chain := chain p;
     LastPrunedBlockNum := num;
     config := config p |}.

(** The [case <-prunerRun.C] of [pruningLoop], with [cb] the answer of
    [p.chain.CurrentBlock()]: the pruner afterwards, the rounds of the
    deletion, the error logged, and whether the loop goes on ([false] when
    the worker returns). *)
Definition pruneTick {DB Chain : Type} `{Database DB} `{Dbutils} `{Changeset}
    (fuel : nat) (p : BasicPruner DB Chain) (cb : option Block)
    : result (BasicPruner DB Chain * list roundLog * option error * bool) :=
  match cb with
  | None => Ok (p, [], None, true)
  | Some blk =>
      match Number blk with
      | None => Ok (p, [], None, true)
      | Some number =>
          let '(from, to, ok) :=
            calculateNumOfPrunedBlocks (Uint64 number) (LastPrunedBlockNum p)
              (BlocksBeforePruning (config p)) (BlocksToPrune (config p)) in
          if negb ok then Ok (p, [], None, true)
          else
            r <- Prune fuel (db p) from to ;;
            let '(d', rounds, err) := r in
            match err with
            | Some e => Ok (setPruned p d' (LastPrunedBlockNum p), rounds, Some e, false)
            | None => Ok (setPruned p d' to, rounds, None, true)
            end
      end
  end.

(** ** An in-memory store and sample collaborators

    Fakes to run the pruner on: bucket names, a decoder for keys that
    start with a two-byte big-endian block number, and a store held in
    memory whose deletes and commits can be told to fail. *)

Module Sample.

#[export] Instance dbutils : Dbutils := {|
  AccountsHistoryBucket := "hAT";
  StorageHistoryBucket := "hST";
  HashedStorageBucket := "HST";
  PlainAccountChangeSetBucket := "PLAIN-ACS";
  PlainStorageChangeSetBucket := "PLAIN-SCS";
  CompositeKeySuffix := fun key timestamp =>
    key ++ [match Byte.of_N (Z.to_N ((timestamp / 256) mod 256)) with
            | Some b => b | None => x00 end;
            match Byte.of_N (Z.to_N (timestamp mod 256)) with
            | Some b => b | None => x00 end]
|}.

Definition errShortKey : error := ErrStore "key too short".

#[export] Instance changeset : Changeset := {|
  Mapper_Decode := fun _ key _ =>
    match key with
    | hi :: lo :: subject =>
        (Z.of_N (Byte.to_N hi) * 256 + Z.of_N (Byte.to_N lo), subject, None)
    | _ => (0, [], Some errShortKey)
    end
|}.

Definition bytes_eqb (a b : bytes) : bool :=
  if list_eq_dec Byte.byte_eq_dec a b then true else false.

Record MemDb : Type := {
  mem_buckets : list (string * list cursorItem);
  mem_failDelete : list bytes;
  mem_failCommit : option error
}.

Record MemBatch : Type := {
  pending : list (string * bytes);
  failing : list bytes
}.

Definition errDelete : error := ErrStore "delete failed".

Definition mem_cursor (d : MemDb) (name : string) : list cursorItem :=
  match find (fun b => (fst b =? name)%string) (mem_buckets d) with
  | Some b => snd b
  | None => []
  end.

Definition mem_delete (b : MemBatch) (name : string) (key : bytes)
    : MemBatch * option error :=
  if existsb (bytes_eqb key) (failing b) then (b, Some errDelete)
  else ({| pending := pending b ++ [(name, key)]; failing := failing b |}, None).

Definition is_pending (name : string) (b : MemBatch) (it : cursorItem) : bool :=
  match it with
  | Entry key _ =>
      existsb (fun p => (fst p =? name)%string && bytes_eqb (snd p) key) (pending b)
  | ReadError _ => false
  end.

Definition mem_commit (d : MemDb) (b : MemBatch) : MemDb * option error :=
  match mem_failCommit d with
  | Some e => (d, Some e)
  | None =>
      ({| mem_buckets :=
            map (fun nb => (fst nb,
                            filter (fun it => negb (is_pending (fst nb) b it)) (snd nb)))
                (mem_buckets d);
          mem_failDelete := mem_failDelete d;
          mem_failCommit := None |}, None)
  end.

#[export] Instance database : Database MemDb := {|
  MutBatch := MemBatch;
  bucketCursor := mem_cursor;
  NewBatch := fun d => {| pending := []; failing := mem_failDelete d |};
  Delete := mem_delete;
  Commit := mem_commit
|}.

(** A store whose every operation succeeds. *)
Definition emptyDbWith (bs : list (string * list cursorItem)) : MemDb :=
  {| mem_buckets := bs; mem_failDelete := []; mem_failCommit := None |}.

Definition emptyDb : MemDb := emptyDbWith [].

(** Keys of the account change-set bucket for blocks 5000, 10100, 10101
    and 50000, each followed by a one-byte subject. *)
Definition key5000 : bytes := [x13; x88; xa1].
Definition key10100 : bytes := [x27; x74; xa2].
Definition key10101 : bytes := [x27; x75; xa3].
Definition key50000 : bytes := [xc3; x50; xa4].

Definition accountItems : list cursorItem :=
  [Entry key5000 []; Entry key10100 []; Entry key10101 []; Entry key50000 []].

Definition chainDb : MemDb :=
  {| mem_buckets := [(PlainAccountChangeSetBucket, accountItems)];
     mem_failDelete := [];
     mem_failCommit := None |}.

(** [n] keys, all different: the numbers from [start] on, in base 256. *)
Fixpoint keyOfN (digits : nat) (n : N) : bytes :=
  match digits with
  | O => []
  | S digits' =>
      match Byte.of_N (n mod 256) with
      | Some b => b :: keyOfN digits' (n / 256)
      | None => []
      end
  end.

Fixpoint keysFrom (n : nat) (start : N) : Keys :=
  match n with
  | O => []
  | S n' => keyOfN 3 start :: keysFrom n' (N.succ start)
  end.

Definition manyKeys (n : nat) : Keys := keysFrom n 0.





Definition sampleConfig : CacheConfig :=
  {| BlocksBeforePruning := 90000;
     BlocksToPrune := 70000;
     PruneTimeout := 5000000000 |}.


(** Keys to remove with [n] account history keys and nothing else. *)
Definition historyOnly (n : nat) : keysToRemove :=
  {| AccountHistoryKeys := manyKeys n;
     StorageHistoryKeys := [];
     AccountChangeSet := [];
     StorageChangeSet := [];
     StorageKeys := [];
     IntermediateTrieHashKeys := [] |}.

(** The keys [Prune] collects from [n] account change-set entries: as
    many history keys as raw keys. *)
Definition accountsOnly (n : nat) : keysToRemove :=
  {| AccountHistoryKeys := manyKeys n;
     StorageHistoryKeys := [];
     AccountChangeSet := manyKeys n;
     StorageChangeSet := [];
     StorageKeys := [];
     IntermediateTrieHashKeys := [] |}.

(** A store with one account change and one storage change at block
    5000. *)
Definition storageKey5000 : bytes := [x13; x88; xb7].

Definition bothDb : MemDb :=
  {| mem_buckets := [(PlainAccountChangeSetBucket, [Entry key5000 []]);
                     (PlainStorageChangeSetBucket, [Entry storageKey5000 []])];
     mem_failDelete := [];
     mem_failCommit := None |}.

(** The store [Prune] leaves of it: the storage change is still there. *)
Definition bothDbPruned : MemDb :=
  {| mem_buckets := [(PlainAccountChangeSetBucket, []);
                     (PlainStorageChangeSetBucket, [Entry storageKey5000 []])];
     mem_failDelete := [];
     mem_failCommit := None |}.

(** Five account history keys, and a store whose delete of the third
    fails. *)
Definition fiveKeys : keysToRemove :=
  {| AccountHistoryKeys := [[xb1]; [xb2]; [xb3]; [xb4]; [xb5]];
     StorageHistoryKeys := [];
     AccountChangeSet := [];
     StorageChangeSet := [];
     StorageKeys := [];
     IntermediateTrieHashKeys := [] |}.

Definition flakyDb : MemDb :=
  {| mem_buckets :=
       [(AccountsHistoryBucket,
         [Entry [xb1] []; Entry [xb2] []; Entry [xb3] []; Entry [xb4] []; Entry [xb5] []])];
     mem_failDelete := [[xb3]];
     mem_failCommit := None |}.

Definition errCommit : error := ErrStore "commit failed".

(** The same store with commits that fail. *)
Definition readOnlyDb : MemDb :=
  {| mem_buckets := mem_buckets flakyDb;
     mem_failDelete := [];
     mem_failCommit := Some errCommit |}.

End Sample.

(** ** The checkpoint in the store, [Start] and the loop of the worker *)

Module LittleEndian.

(** [byte(x)]: the low eight bits. *)
Definition byteOf (x : Z) : byte :=
  match Byte.of_N (Z.to_N (x mod 256)) with
  | Some b => b
  | None => x00
  end.

(** [uint64(b)] of a byte. *)
Definition valueOf (b : byte) : Z := Z.of_N (Byte.to_N b).

(** [binary.LittleEndian.PutUint64] into a slice of eight bytes. *)
Definition PutUint64 (v : Z) : bytes :=
  [byteOf v; byteOf (Z.shiftr v 8); byteOf (Z.shiftr v 16); byteOf (Z.shiftr v 24);
   byteOf (Z.shiftr v 32); byteOf (Z.shiftr v 40); byteOf (Z.shiftr v 48);
   byteOf (Z.shiftr v 56)].

(** [binary.LittleEndian.Uint64]: the bounds check [_ = b[7]] first. *)
Definition Uint64 (b : bytes) : result Z :=
  _ <- index b 7 ;;
  b0 <- index b 0 ;;
  b1 <- index b 1 ;;
  b2 <- index b 2 ;;
  b3 <- index b 3 ;;
  b4 <- index b 4 ;;
  b5 <- index b 5 ;;
  b6 <- index b 6 ;;
  b7 <- index b 7 ;;
  Ok (Z.lor (valueOf b0)
     (Z.lor (Z.shiftl (valueOf b1) 8)
     (Z.lor (Z.shiftl (valueOf b2) 16)
     (Z.lor (Z.shiftl (valueOf b3) 24)
     (Z.lor (Z.shiftl (valueOf b4) 32)
     (Z.lor (Z.shiftl (valueOf b5) 40)
     (Z.lor (Z.shiftl (valueOf b6) 48)
            (Z.shiftl (valueOf b7) 56)))))))).

End LittleEndian.

(** The bucket and the key of package [dbutils] under which the pruner
    keeps its checkpoint. *)
Class DbutilsInfo : Type := {
  DatabaseInfoBucket : string;
  LastPrunedBlockKey : bytes
}.

(** Modelled from the spec: [get(bucket, key) -> bytes|absent] and
    [put(bucket, key, value)] of the store [ethdb.Database], which is not
    in this file's source.  [Get] answers the data, [nil] when there is
    none, and an error. *)
Class KeyValue (DB : Type) : Type := {
  Get : DB -> string -> bytes -> bytes * option error;
  Put : DB -> string -> bytes -> bytes -> DB * option error
}.

(** What is put under a key is what a later get of that key answers. *)
Definition getAfterPut (DB : Type) `{KeyValue DB} : Prop :=
  forall (d d' : DB) (bucketName : string) (key value : bytes),
    Put d bucketName key value = (d', None) -> fst (Get d' bucketName key) = value.

Definition ReadLastPrunedBlockNum {DB Chain : Type} `{KeyValue DB} `{DbutilsInfo}
    (p : BasicPruner DB Chain) : result Z :=
  let '(data, _) := Get (db p) DatabaseInfoBucket LastPrunedBlockKey in
  if len data =? 0 then Ok 0
  else LittleEndian.Uint64 data.

(** [WriteLastPrunedBlockNum]: the pruner over the store after the put, and
    the error handed to [log.Crit] when the put fails. *)
Definition WriteLastPrunedBlockNum {DB Chain : Type} `{KeyValue DB} `{DbutilsInfo}
    (p : BasicPruner DB Chain) (num : Z) : BasicPruner DB Chain * option error :=
  let b := LittleEndian.PutUint64 num in
  let '(d', err) := Put (db p) DatabaseInfoBucket LastPrunedBlockKey b in
  (setPruned p d' (LastPrunedBlockNum p), err).

(** [Start], up to the [go] statement: the checkpoint is read from the
    store and the wait group counts the worker. *)
Definition Start {DB Chain : Type} `{KeyValue DB} `{DbutilsInfo}
    (p : BasicPruner DB Chain) : result (BasicPruner DB Chain) :=
  num <- ReadLastPrunedBlockNum p ;;
  Ok {| wg := wg p + 1;
        stop := stop p;
        db := db p;
        chain := chain p;
        LastPrunedBlockNum := num;
        config := config p |}.

(** The case the [select] of [pruningLoop] takes in one turn: the stop
    signal, the five-minute timer, or the prune timer, with what
    [p.chain.CurrentBlock()] answers at that time. *)
Inductive selectCase : Type :=
| StopSignal
| SaveTimer
| PruneTimer (cb : option Block).

(** What a turn of the loop leaves in the logs. *)
Inductive turnLog : Type :=
| Stopped (num : Z) (crit : option error)
| Saved (num : Z) (crit : option error)
| Pruned (rounds : list roundLog) (err : option error).

(** [defer p.wg.Done()] *)
Definition workerDone {DB Chain : Type} (p : BasicPruner DB Chain) : BasicPruner DB Chain :=
  {| wg := wg p - 1;
     stop := stop p;
     db := db p;
     chain := chain p;
     LastPrunedBlockNum := LastPrunedBlockNum p;
     config := config p |}.

(** [pruningLoop] over the cases its [select] takes, in order: the pruner
    afterwards, the logs, and whether the worker has returned ([false] when
    it waits for a next case). *)
Fixpoint pruningLoop {DB Chain : Type} `{Database DB} `{KeyValue DB} `{Dbutils}
    `{DbutilsInfo} `{Changeset} (fuel : nat) (p : BasicPruner DB Chain)
    (cases : list selectCase) (logs : list turnLog)
    : result (BasicPruner DB Chain * list turnLog * bool) :=
  match cases with
  | [] => Ok (p, logs, false)
  | StopSignal :: _ =>
      let '(p', crit) := WriteLastPrunedBlockNum p (LastPrunedBlockNum p) in
      Ok (workerDone p', logs ++ [Stopped (LastPrunedBlockNum p) crit], true)
  | SaveTimer :: rest =>
      let '(p', crit) := WriteLastPrunedBlockNum p (LastPrunedBlockNum p) in
      pruningLoop fuel p' rest (logs ++ [Saved (LastPrunedBlockNum p) crit])
  | PruneTimer cb :: rest =>
      r <- pruneTick fuel p cb ;;
      let '(p', rounds, err, alive) := r in
      if alive then pruningLoop fuel p' rest (logs ++ [Pruned rounds err])
      else Ok (workerDone p', logs ++ [Pruned rounds err], true)
  end.

(** The deletes of all rounds, in order, without the answers of the
    store. *)
Definition takenKeys (rounds : list roundLog) : list (string * bytes) :=
  flat_map (fun r => map fst (deletes r)) rounds.

(** The keys of the four groups before the last, in traversal order, each
    with the bucket of its group. *)
Definition keysInOrder `{Dbutils} (ks : keysToRemove) : list (string * bytes) :=
  map (pair AccountsHistoryBucket) (AccountHistoryKeys ks)
  ++ map (pair StorageHistoryBucket) (StorageHistoryKeys ks)
  ++ map (pair HashedStorageBucket) (StorageKeys ks)
  ++ map (pair PlainAccountChangeSetBucket) (AccountChangeSet ks).

(** A position the cursor can be in: a group, and an offset that is in the
    group when the group is not the last. *)
Definition validPosition (ks : keysToRemove) (j : nat) (c : Z) : Prop :=
  (j < 5)%nat /\ 0 <= c /\ ((j < 4)%nat -> c <= len (group ks j)).

(** A position the cursor gets to from its start under the limit [lim]:
    the groups it has left are shorter than the limit, and the offset is no
    more than the limit. *)
Definition reachablePosition (ks : keysToRemove) (lim : Z) (j : nat) (c : Z) : Prop :=
  validPosition ks j c /\
  (forall i, (i < j)%nat -> len (group ks i) < lim) /\
  c <= Z.max lim 0 /\
  (0 < lim \/ (j = 0%nat /\ c = 0)).

(** The iterator [i] stands at position [(j, c)]: it is the iterator at
    that position, or the iterator [LimitIterator] returns, which has no
    current bucket yet, at the start. *)
Definition cursorAt `{Dbutils} (ks : keysToRemove) (lim : Z) (i : limitIterator)
    (j : nat) (c : Z) : Prop :=
  (exists cnt, i = itAt ks lim cnt j c) \/
  (i = LimitIterator ks lim /\ j = 0%nat /\ c = 0).

(** When [batchDelete] over an iterator with limit [lim] returns. *)
Definition groupsFit (ks : keysToRemove) (lim : Z) : Prop :=
  0 < lim /\
  (forall i, (i < 4)%nat -> len (group ks i) < lim) /\
  len (group ks 4) <= lim.

(** A store in memory for the checkpoint: an association list, the newest
    binding first. *)
Module SampleStore.

Definition MemKV : Type := list (string * bytes * bytes).

Definition kv_get (d : MemKV) (bucketName : string) (key : bytes) : bytes * option error :=
  match find (fun e => (fst (fst e) =? bucketName)%string
                       && Sample.bytes_eqb (snd (fst e)) key) d with
  | Some e => (snd e, None)
  | None => ([], Some (ErrStore "key not found"))
  end.

#[export] Instance keyValue : KeyValue MemKV := {|
  Get := kv_get;
  Put := fun d bucketName key value => ((bucketName, key, value) :: d, None)
|}.

#[export] Instance info : DbutilsInfo := {|
  DatabaseInfoBucket := "DBINFO";
  LastPrunedBlockKey := [x4c; x50]
|}.

(** The change sets and the checkpoint in one store. *)
Definition FullDb : Type := (Sample.MemDb * MemKV)%type.

#[export] Instance fullDatabase : Database FullDb := {|
  MutBatch := Sample.MemBatch;
  bucketCursor := fun d => Sample.mem_cursor (fst d);
  NewBatch := fun d => {| Sample.pending := [];
                          Sample.failing := Sample.mem_failDelete (fst d) |};
  Delete := Sample.mem_delete;
  Commit := fun d b => (fst (Sample.mem_commit (fst d) b), snd d,
                        snd (Sample.mem_commit (fst d) b))
|}.

#[export] Instance fullKeyValue : KeyValue FullDb := {|
  Get := fun d => kv_get (snd d);
  Put := fun d bucketName key value => ((fst d, (bucketName, key, value) :: snd d), None)
|}.

(** A pruner over the store [Sample.chainDb] with no checkpoint stored. *)
Definition chainPruner : BasicPruner FullDb unit :=
  {| wg := 1;
     stop := make_chan 1;
     db := (Sample.chainDb, []);
     chain := tt;
     LastPrunedBlockNum := 0;
     config := Sample.sampleConfig |}.

(** A pruner over [d] with checkpoint [num]. *)
Definition prunerAt (d : MemKV) (num : Z) : BasicPruner MemKV unit :=
  {| wg := 0;
     stop := make_chan 1;
     db := d;
     chain := tt;
     LastPrunedBlockNum := num;
     config := Sample.sampleConfig |}.

End SampleStore.

(** * Properties *)

Unset Implicit Arguments.

(** ** RangeCalculator *)

Lemma U64_wrap_small (z : Z) : U64.in_range z -> U64.wrap z = z.
Proof. unfold U64.in_range, U64.wrap. intros Hz. apply Z.mod_small. exact Hz. Qed.

(** On [uint64] inputs the function is the one of the spec, on unbounded
    integers, and none of its operations wraps. *)
Lemma calculate_traced_spec (cb lp bbp bb : Z) :
  U64.in_range cb -> U64.in_range lp -> U64.in_range bbp -> U64.in_range bb ->
  calculateNumOfPrunedBlocks_traced cb lp bbp bb =
    (if (cb <=? lp) || (cb - lp <=? bbp) then (lp, lp, false)
     else (lp, lp + Z.min (cb - lp - bbp) bb, true),
     false).
Proof.
  unfold U64.in_range, U64.modulus. intros Hcb Hlp Hbbp Hbb.
  unfold calculateNumOfPrunedBlocks_traced, U64.sub, U64.add.
  destruct (Z.leb_spec cb lp) as [Hle | Hlt]; [reflexivity | ].
  rewrite (U64_wrap_small (cb - lp)) by (unfold U64.in_range, U64.modulus; lia).
  cbn [orb].
  destruct (Z.leb_spec (cb - lp) bbp) as [Hle' | Hlt'].
  - destruct (Z.ltb_spec cb lp); [lia | reflexivity].
  - rewrite (U64_wrap_small (cb - lp - bbp))
      by (unfold U64.in_range, U64.modulus; lia).
    destruct (Z.ltb_spec cb lp); [lia | ].
    destruct (Z.ltb_spec (cb - lp) bbp); [lia | ].
    unfold Z.geb. destruct (Z.compare_spec (cb - lp - bbp) bb) as [He | Hl | Hg].
    + rewrite U64_wrap_small by (unfold U64.in_range, U64.modulus; lia).
      destruct (Z.leb_spec U64.modulus (lp + bb)); [unfold U64.modulus in *; lia | ].
      rewrite Z.min_r by lia. reflexivity.
    + destruct (Z.ltb_spec (cb - lp - bbp) bb); [ | lia].
      rewrite U64_wrap_small by (unfold U64.in_range, U64.modulus; lia).
      destruct (Z.leb_spec U64.modulus (lp + (cb - lp - bbp)));
        [unfold U64.modulus in *; lia | ].
      rewrite Z.min_l by lia. reflexivity.
    + rewrite U64_wrap_small by (unfold U64.in_range, U64.modulus; lia).
      destruct (Z.leb_spec U64.modulus (lp + bb)); [unfold U64.modulus in *; lia | ].
      rewrite Z.min_r by lia. reflexivity.
Qed.

(** The instrumented function computes what the function computes. *)
Lemma calculate_traced_fst (cb lp bbp bb : Z) :
  fst (calculateNumOfPrunedBlocks_traced cb lp bbp bb) =
    calculateNumOfPrunedBlocks cb lp bbp bb.
Proof.
  unfold calculateNumOfPrunedBlocks_traced, calculateNumOfPrunedBlocks, U64.sub, U64.add.
  repeat match goal with
         | |- context [if ?b then _ else _] => destruct b
         end; reflexivity.
Qed.

Lemma calculate_spec (cb lp bbp bb : Z) :
  U64.in_range cb -> U64.in_range lp -> U64.in_range bbp -> U64.in_range bb ->
  calculateNumOfPrunedBlocks cb lp bbp bb =
    if (cb <=? lp) || (cb - lp <=? bbp) then (lp, lp, false)
    else (lp, lp + Z.min (cb - lp - bbp) bb, true).
Proof.
  intros. rewrite <- calculate_traced_fst.
  rewrite calculate_traced_spec by assumption. reflexivity.
Qed.

(** C6.  For [uint64] inputs with [currentBlock <= lastPruned],
    [calculateNumOfPrunedBlocks] answers not eligible with
    [from = to = lastPruned]; so it does when
    [currentBlock - lastPruned <= blocksBeforePruning]; and none of the
    unsigned operations it executes wraps: the instrumented function,
    which computes the same result, reports no wrap. *)
Theorem calculate_range_safety (cb lp bbp bb : Z) :
  U64.in_range cb -> U64.in_range lp -> U64.in_range bbp -> U64.in_range bb ->
  (cb <= lp -> calculateNumOfPrunedBlocks cb lp bbp bb = (lp, lp, false)) /\
  (cb - lp <= bbp -> calculateNumOfPrunedBlocks cb lp bbp bb = (lp, lp, false)) /\
  calculateNumOfPrunedBlocks_traced cb lp bbp bb =
    (calculateNumOfPrunedBlocks cb lp bbp bb, false).
Proof.
  intros Hcb Hlp Hbbp Hbb. repeat split.
  - intros Hle. rewrite calculate_spec by assumption.
    destruct (Z.leb_spec cb lp); [reflexivity | lia].
  - intros Hle. rewrite calculate_spec by assumption.
    destruct (Z.leb_spec (cb - lp) bbp); [ | lia].
    rewrite orb_true_r. reflexivity.
  - rewrite <- calculate_traced_fst.
    rewrite calculate_traced_spec by assumption. reflexivity.
Qed.

Lemma calculate_range_safety_witness :
  calculateNumOfPrunedBlocks 5 9 3 7 = (9, 9, false) /\
  calculateNumOfPrunedBlocks 12 9 3 7 = (9, 9, false) /\
  calculateNumOfPrunedBlocks_traced 5 9 3 7 =
    (calculateNumOfPrunedBlocks 5 9 3 7, false).
Proof.
  assert (R : forall z, 0 <= z < 100 -> U64.in_range z)
    by (unfold U64.in_range, U64.modulus; lia).
  destruct (calculate_range_safety 5 9 3 7) as (H1 & _ & H3); try (apply R; lia).
  destruct (calculate_range_safety 12 9 3 7) as (_ & H2 & _); try (apply R; lia).
  split; [apply H1; lia | split; [apply H2; lia | exact H3]].
Defined.

(** One prune tick leaves the checkpoint where it was or moves it to the
    [to] of the range it pruned. *)
Lemma pruneTick_checkpoint {DB Chain : Type} `{Database DB} `{Dbutils} `{Changeset}
    (fuel : nat) (p p' : BasicPruner DB Chain) (cb : option Block)
    (rounds : list roundLog) (err : option error) (alive : bool) :
  pruneTick fuel p cb = Ok (p', rounds, err, alive) ->
  LastPrunedBlockNum p' = LastPrunedBlockNum p \/
  exists number from,
    cb = Some {| Number := Some number |} /\ err = None /\
    calculateNumOfPrunedBlocks (Uint64 number) (LastPrunedBlockNum p)
      (BlocksBeforePruning (config p)) (BlocksToPrune (config p))
    = (from, LastPrunedBlockNum p', true).
Proof.
  unfold pruneTick. intros Htick.
  destruct cb as [[[number | ]] | ]; try (injection Htick as <- _ _ _; now left).
  cbn [Number] in Htick.
  destruct (calculateNumOfPrunedBlocks (Uint64 number) (LastPrunedBlockNum p)
              (BlocksBeforePruning (config p)) (BlocksToPrune (config p)))
    as [[from to] ok] eqn:Hcalc.
  destruct ok; cbn [negb] in Htick; [ | injection Htick as <- _ _ _; now left].
  destruct (Prune fuel (db p) from to) as [[[d' rs] [e | ]] | | ]; cbn in Htick;
    try discriminate.
  - injection Htick as <- _ _ _. now left.
  - injection Htick as <- _ <- _. right. exists number, from. cbn. auto.
Qed.

(** C7.  For [uint64] inputs, [calculateNumOfPrunedBlocks] answers eligible
    exactly when [currentBlock > lastPruned] and
    [currentBlock - lastPruned > blocksBeforePruning], and then
    [from = lastPruned] and
    [to = lastPruned + min (currentBlock - lastPruned - blocksBeforePruning) blocksBatch];
    so [from <= to], [to - from <= blocksBatch] and [to >= lastPruned], and
    a prune tick, which assigns [to] to the checkpoint, never decreases it.
    With head 100100, checkpoint 0, retention 90000 and batch 70000 the
    range is [(0, 10100)], eligible. *)
Theorem calculate_eligible_range :
  (forall cb lp bbp bb : Z,
      U64.in_range cb -> U64.in_range lp -> U64.in_range bbp -> U64.in_range bb ->
      lp < cb -> bbp < cb - lp ->
      let to := lp + Z.min (cb - lp - bbp) bb in
      calculateNumOfPrunedBlocks cb lp bbp bb = (lp, to, true) /\
      lp <= to /\ to - lp <= bb /\ U64.in_range to) /\
  (forall cb lp bbp bb from to : Z,
      U64.in_range cb -> U64.in_range lp -> U64.in_range bbp -> U64.in_range bb ->
      calculateNumOfPrunedBlocks cb lp bbp bb = (from, to, true) ->
      lp < cb /\ bbp < cb - lp) /\
  (forall (DB Chain : Type) (HD : Database DB) (HU : Dbutils) (HC : Changeset)
          (fuel : nat) (p p' : BasicPruner DB Chain) (cb : option Block)
          (rounds : list roundLog) (err : option error) (alive : bool),
      U64.in_range (LastPrunedBlockNum p) ->
      U64.in_range (BlocksBeforePruning (config p)) ->
      U64.in_range (BlocksToPrune (config p)) ->
      pruneTick fuel p cb = Ok (p', rounds, err, alive) ->
      LastPrunedBlockNum p <= LastPrunedBlockNum p') /\
  calculateNumOfPrunedBlocks 100100 0 90000 70000 = (0, 10100, true).
Proof.
  split; [ | split; [ | split; [ | reflexivity]]].
  - intros cb lp bbp bb Hcb Hlp Hbbp Hbb Hlt Hret to.
    rewrite calculate_spec by assumption.
    destruct (Z.leb_spec cb lp); [lia | ].
    destruct (Z.leb_spec (cb - lp) bbp); [lia | ].
    cbn [orb]. unfold U64.in_range, U64.modulus in *.
    subst to. repeat split; try reflexivity; lia.
  - intros cb lp bbp bb from to Hcb Hlp Hbbp Hbb.
    rewrite calculate_spec by assumption.
    destruct (Z.leb_spec cb lp); [discriminate | ].
    destruct (Z.leb_spec (cb - lp) bbp); [discriminate | ].
    intros _. lia.
  - intros DB Chain HD HU HC fuel p p' cb rounds err alive Hlp Hbbp Hbb Htick.
    destruct (pruneTick_checkpoint fuel p p' cb rounds err alive Htick)
      as [-> | (number & from & _ & _ & Hcalc)]; [lia | ].
    assert (Hcb : U64.in_range (Uint64 number)).
    { unfold Uint64, U64.wrap, U64.in_range, U64.modulus.
      apply Z.mod_pos_bound. lia. }
    rewrite calculate_spec in Hcalc by assumption.
    destruct (Z.leb_spec (Uint64 number) (LastPrunedBlockNum p)); [discriminate | ].
    destruct (Z.leb_spec (Uint64 number - LastPrunedBlockNum p)
                         (BlocksBeforePruning (config p))); [discriminate | ].
    injection Hcalc as _ <-. unfold U64.in_range in *. lia.
Qed.

Lemma calculate_eligible_range_witness :
  calculateNumOfPrunedBlocks 100100 0 90000 70000
    = (0, 0 + Z.min (100100 - 0 - 90000) 70000, true) /\
  0 <= 0 + Z.min (100100 - 0 - 90000) 70000 /\
  0 + Z.min (100100 - 0 - 90000) 70000 - 0 <= 70000 /\
  U64.in_range (0 + Z.min (100100 - 0 - 90000) 70000).
Proof.
  assert (R : forall z, 0 <= z < 1000000 -> U64.in_range z)
    by (unfold U64.in_range, U64.modulus; lia).
  destruct calculate_eligible_range as (Hrange & _).
  apply (Hrange 100100 0 90000 70000); try (apply R; lia); lia.
Defined.

(** ** Construction *)

Lemma Seconds_lt_1 (d : Z) : Qltb (Duration.Seconds d) 1 = (d <? Duration.Second).
Proof.
  unfold Qltb, Qle_bool, Duration.Seconds, Duration.Second. cbn [Qnum Qden Qplus inject_Z].
  pose proof (Z.quot_rem' d 1000000000) as Hd.
  destruct (Z.ltb_spec d 1000000000) as [Hlt | Hge];
    [apply negb_true_iff, Z.leb_gt | apply negb_false_iff, Z.leb_le]; lia.
Qed.

(** C10.  [NewBasicPruner] returns an error, and no pruner, exactly when
    [BlocksToPrune] is 0 or [PruneTimeout] is shorter than one second;
    otherwise it returns, without error, a pruner with
    [LastPrunedBlockNum = 0] and a stop channel buffered for one signal. *)
Theorem NewBasicPruner_config_check :
  forall (DB Chain : Type) (database : DB) (chainer : Chain) (cfg : CacheConfig),
    (BlocksToPrune cfg = 0 \/ PruneTimeout cfg < Duration.Second ->
     exists e, NewBasicPruner database chainer cfg = (None, Some e)) /\
    (~ (BlocksToPrune cfg = 0 \/ PruneTimeout cfg < Duration.Second) ->
     NewBasicPruner database chainer cfg =
       (Some {| wg := 0;
                stop := {| chan_cap := 1; chan_queued := 0 |};
                db := database;
                chain := chainer;
                LastPrunedBlockNum := 0;
                config := cfg |},
        None)).
Proof.
  intros DB Chain database chainer cfg. unfold NewBasicPruner.
  rewrite Seconds_lt_1.
  destruct (Z.eqb_spec (BlocksToPrune cfg) 0) as [Hz | Hnz];
    destruct (Z.ltb_spec (PruneTimeout cfg) Duration.Second) as [Hlt | Hge];
    cbn [orb]; split; intros Hcfg; eauto; try solve [exfalso; tauto].
  destruct Hcfg; [contradiction | lia].
Qed.

Lemma NewBasicPruner_config_check_witness :
  (exists e, NewBasicPruner tt tt
               {| BlocksBeforePruning := 90000; BlocksToPrune := 0;
                  PruneTimeout := 5000000000 |} = (None, Some e)) /\
  (exists e, NewBasicPruner tt tt
               {| BlocksBeforePruning := 90000; BlocksToPrune := 70000;
                  PruneTimeout := 999999999 |} = (None, Some e)) /\
  NewBasicPruner tt tt
    {| BlocksBeforePruning := 90000; BlocksToPrune := 70000;
       PruneTimeout := 1000000000 |} =
    (Some {| wg := 0; stop := {| chan_cap := 1; chan_queued := 0 |};
             db := tt; chain := tt; LastPrunedBlockNum := 0;
             config := {| BlocksBeforePruning := 90000; BlocksToPrune := 70000;
                          PruneTimeout := 1000000000 |} |}, None).
Proof.
  split; [ | split].
  - apply (NewBasicPruner_config_check unit unit tt tt). left. reflexivity.
  - apply (NewBasicPruner_config_check unit unit tt tt). right. reflexivity.
  - apply (NewBasicPruner_config_check unit unit tt tt).
    cbn. unfold Duration.Second. intros [Hz | Hlt]; [discriminate | lia].
Defined.

(** ** The cursor *)

Section Cursor.

Context `{HU : Dbutils}.
Hypothesis Hdistinct : distinctBuckets.

Lemma name_eqb (i j : nat) :
  (i < 5)%nat -> (j < 5)%nat -> (name i =? name j)%string = (i =? j)%nat.
Proof.
  intros Hi Hj. unfold distinctBuckets in Hdistinct.
  rewrite (NoDup_nth _ EmptyString) in Hdistinct.
  destruct (Nat.eqb_spec i j) as [-> | Hne]; [apply String.eqb_refl | ].
  apply String.eqb_neq. intros Heq. apply Hne.
  assert (S i = S j) as [= ->]; [ | reflexivity].
  apply Hdistinct; cbn [List.length bucketNames]; try lia. exact Heq.
Qed.

Lemma name_nonempty (j : nat) :
  (j < 5)%nat -> (name j =? EmptyString)%string = false.
Proof.
  intros Hj. unfold distinctBuckets in Hdistinct.
  rewrite (NoDup_nth _ EmptyString) in Hdistinct.
  apply String.eqb_neq. intros Heq.
  assert (S j = 0%nat) as [=].
  apply Hdistinct; cbn [List.length bucketNames]; try lia. exact Heq.
Qed.

Variable ks : keysToRemove.
Variable lim : Z.

Lemma batches_names (cnt : Z) (j : nat) (c : Z) :
  batches (itAt ks lim cnt j c) = map (batchOf ks) (seq 0 5).
Proof. reflexivity. Qed.

Lemma index_batches (m : nat) :
  (m < 5)%nat -> index (map (batchOf ks) (seq 0 5)) (Z.of_nat m) = Ok (batchOf ks m).
Proof.
  intros Hm. unfold index.
  destruct (Z.ltb_spec (Z.of_nat m) 0); [lia | ].
  rewrite Nat2Z.id.
  do 5 (destruct m as [ | m]; [reflexivity | ]). lia.
Qed.

Lemma updateBucket_loop_at (n m : nat) (cnt : Z) (j : nat) (c : Z) :
  (m + n = 5)%nat -> (j < 5)%nat ->
  updateBucket_loop (map (batchOf ks) (seq m n)) (Z.of_nat m) (itAt ks lim cnt j c) =
    Ok (itAt ks lim cnt (fst (settle ks (seq m (n - 1)) (j, c)))
                        (snd (settle ks (seq m (n - 1)) (j, c)))).
Proof.
  revert m j c. induction n as [ | n IH]; intros m j c Hmn Hj; [reflexivity | ].
  cbn [seq map updateBucket_loop].
  rewrite batches_names. change (len (map (batchOf ks) (seq 0 5))) with 5.
  destruct (Z.eqb_spec (Z.of_nat m) (5 - 1)) as [Hlast | Hnot].
  - assert (n = 0%nat) as -> by lia. reflexivity.
  - assert (Hseq : seq m (S n - 1) = m :: seq (S m) (n - 1)).
    { replace (S n - 1)%nat with (S (n - 1)) by lia. reflexivity. }
    rewrite Hseq. cbn [settle fst snd].
    change (currentBucket (itAt ks lim cnt j c)) with (name j).
    change (currentNum (itAt ks lim cnt j c)) with c.
    change (bucket (batchOf ks m)) with (name m).
    change (keys (batchOf ks m)) with (group ks m).
    rewrite name_eqb by lia.
    replace (Z.of_nat m + 1) with (Z.of_nat (S m)) by lia.
    destruct ((j =? m)%nat && (len (group ks m) =? c)).
    + rewrite index_batches by lia. cbn [bind].
      change (moveTo (itAt ks lim cnt j c) (bucket (batchOf ks (S m))) 0)
        with (itAt ks lim cnt (S m) 0).
      apply IH; lia.
    + apply IH; lia.
Qed.

Lemma updateBucket_at (cnt : Z) (j : nat) (c : Z) :
  (j < 5)%nat ->
  updateBucket (itAt ks lim cnt j c) =
    Ok (itAt ks lim cnt (fst (norm ks j c)) (snd (norm ks j c))).
Proof.
  intros Hj. unfold updateBucket.
  change (currentBucket (itAt ks lim cnt j c)) with (name j).
  rewrite name_nonempty by assumption. cbn [bind].
  rewrite batches_names.
  apply (updateBucket_loop_at 5 0 cnt j c); [reflexivity | assumption].
Qed.

Lemma HasMore_at (cnt : Z) (j : nat) (c : Z) :
  (j < 5)%nat ->
  HasMore (itAt ks lim cnt j c) =
    Ok (negb ((j =? 4)%nat && (len (group ks 4) =? c))).
Proof.
  intros Hj. unfold HasMore. rewrite batches_names.
  change (len (map (batchOf ks) (seq 0 5)) - 1) with (Z.of_nat 4).
  rewrite index_batches by lia. cbn [bind].
  change (currentBucket (itAt ks lim cnt j c)) with (name j).
  change (currentNum (itAt ks lim cnt j c)) with c.
  change (bucket (batchOf ks 4)) with (name 4).
  change (keys (batchOf ks 4)) with (group ks 4).
  rewrite name_eqb by lia.
  destruct ((j =? 4)%nat && (len (group ks 4) =? c)); reflexivity.
Qed.

Lemma GetNext_loop_at (n m : nat) (cnt : Z) (j : nat) (c : Z) :
  (m + n = 5)%nat -> (m <= j < 5)%nat ->
  GetNext_loop (map (batchOf ks) (seq m n)) (Z.of_nat m) (itAt ks lim cnt j c) =
    if (j =? 4)%nat then Ok ([], EmptyString, false)
    else key <- index (group ks j) c ;; Ok (key, name j, true).
Proof.
  revert m. induction n as [ | n IH]; intros m Hmn Hj; [lia | ].
  cbn [seq map GetNext_loop].
  rewrite batches_names. change (len (map (batchOf ks) (seq 0 5))) with 5.
  destruct (Z.eqb_spec (Z.of_nat m) (5 - 1)) as [Hlast | Hnot].
  - assert (j = 4%nat) as -> by lia. reflexivity.
  - change (currentBucket (itAt ks lim cnt j c)) with (name j).
    change (currentNum (itAt ks lim cnt j c)) with c.
    change (bucket (batchOf ks m)) with (name m).
    change (keys (batchOf ks m)) with (group ks m).
    rewrite name_eqb by lia.
    replace (Z.of_nat m + 1) with (Z.of_nat (S m)) by lia.
    destruct (Nat.eqb_spec j m) as [-> | Hjm].
    + destruct (Nat.eqb_spec m 4); [lia | reflexivity].
    + apply IH; lia.
Qed.

(** [GetNext] at a position, in terms of where [updateBucket] settles. *)
Lemma GetNext_at (cnt : Z) (j : nat) (c : Z) :
  (j < 5)%nat -> c < lim ->
  GetNext (itAt ks lim cnt j c) =
    let j' := fst (norm ks j c) in
    let c' := snd (norm ks j c) in
    if (j' =? 4)%nat then
      if len (group ks 4) =? c' then Ok ([], EmptyString, false, itAt ks lim cnt 4 c')
      else Ok ([], EmptyString, false,
               itAt ks lim (U64.wrap (cnt + 1)) 4 (Int.wrap (c' + 1)))
    else
      key <- index (group ks j') c' ;;
      Ok (key, name j', true, itAt ks lim (U64.wrap (cnt + 1)) j' (Int.wrap (c' + 1))).
Proof.
  intros Hj Hc. unfold GetNext.
  change (limit (itAt ks lim cnt j c)) with lim.
  change (currentNum (itAt ks lim cnt j c)) with c.
  destruct (Z.leb_spec lim c); [lia | ].
  rewrite updateBucket_at by assumption. cbn [bind].
  assert (Hj' : (fst (norm ks j c) < 5)%nat).
  { unfold norm. do 5 (destruct j as [ | j]; [cbn; repeat destruct (_ =? _); cbn; lia | ]).
    lia. }
  rewrite HasMore_at by assumption. cbn [bind]. rewrite negb_involutive.
  rewrite batches_names.
  rewrite (GetNext_loop_at 5 0) by lia.
  cbv zeta.
  destruct (Nat.eqb_spec (fst (norm ks j c)) 4) as [Hlast | Hnot]; cbn [andb].
  - rewrite Hlast. destruct (len (group ks 4) =? snd (norm ks j c)); reflexivity.
  - destruct (index (group ks (fst (norm ks j c))) (snd (norm ks j c))); reflexivity.
Qed.

(** At or past the limit [GetNext] answers [ok = false] and stays. *)
Lemma GetNext_at_limit (i : limitIterator) :
  limit i <= currentNum i -> GetNext i = Ok ([], EmptyString, false, i).
Proof.
  intros Hc. unfold GetNext. destruct (Z.leb_spec (limit i) (currentNum i)); [reflexivity | lia].
Qed.

(** Where [updateBucket] settles: it stays in a group that has keys
    left (or is the last), and otherwise moves over the exhausted group
    and the empty groups behind it. *)
Lemma norm_cases (j : nat) (c : Z) :
  (j < 5)%nat -> 0 <= c ->
  (norm ks j c = (j, c) /\ (j = 4%nat \/ len (group ks j) <> c)) \/
  (exists j', norm ks j c = (j', 0) /\ (j < j' < 5)%nat /\ len (group ks j) = c /\
              (forall i, (j < i < j')%nat -> len (group ks i) = 0) /\
              (j' = 4%nat \/ len (group ks j') <> 0)).
Proof.
  intros Hj Hc. unfold norm.
  do 5 (destruct j as [ | j];
        [cbn [settle fst snd Nat.eqb andb];
         repeat match goal with
                | |- context [len ?g =? ?x] => destruct (Z.eqb_spec (len g) x)
                end;
         cbn [settle fst snd Nat.eqb andb];
         first [ left; split; [reflexivity | auto]
               | right; eexists; split; [reflexivity | ];
                 repeat split; auto; try lia;
                 intros i Hi;
                 repeat (destruct i as [ | i]; try lia; try assumption) ]
        | ]).
  lia.
Qed.

Lemma tagged_end (j : nat) (c : Z) : len (group ks j) = c -> tagged ks j c = [].
Proof.
  intros <-. unfold tagged, len. rewrite Nat2Z.id, skipn_all. reflexivity.
Qed.

Lemma tagged_step (j : nat) (c : Z) :
  0 <= c < len (group ks j) ->
  exists key, index (group ks j) c = Ok key /\
              tagged ks j c = (name j, key) :: tagged ks j (c + 1).
Proof.
  unfold len, index, tagged. intros Hc.
  destruct (Z.ltb_spec c 0); [lia | ].
  replace (Z.to_nat (c + 1)) with (S (Z.to_nat c)) by lia.
  assert (Hn : (Z.to_nat c < List.length (group ks j))%nat) by lia.
  revert Hn. generalize (Z.to_nat c) as n. generalize (group ks j) as g.
  induction g as [ | key g IH]; intros n Hn; cbn [List.length] in Hn; [lia | ].
  destruct n as [ | n].
  - exists key. split; reflexivity.
  - destruct (IH n) as (key' & Hidx & Htag); [lia | ].
    exists key'. cbn [nth_error skipn]. split; assumption.
Qed.

Lemma remaining_norm (j : nat) (c : Z) :
  (j < 5)%nat -> 0 <= c ->
  remaining ks (fst (norm ks j c)) (snd (norm ks j c)) = remaining ks j c.
Proof.
  intros Hj Hc. unfold norm.
  do 5 (destruct j as [ | j];
        [cbn [settle fst snd Nat.eqb andb];
         repeat match goal with
                | |- context [len ?g =? ?x] => destruct (Z.eqb_spec (len g) x)
                end;
         cbn [settle fst snd Nat.eqb andb];
         unfold remaining; cbn [Nat.ltb Nat.leb Nat.sub seq flat_map];
         repeat match goal with
                | H : len (group ks ?i) = ?x |- _ =>
                    rewrite (tagged_end i x H); clear H
                end;
         cbn [app]; rewrite ?app_nil_r; reflexivity
        | ]).
  lia.
Qed.

Lemma remaining_step (j : nat) (c : Z) :
  (j < 4)%nat -> 0 <= c < len (group ks j) ->
  exists key, index (group ks j) c = Ok key /\
              remaining ks j c = (name j, key) :: remaining ks j (c + 1).
Proof.
  intros Hj Hc. destruct (tagged_step j c Hc) as (key & Hidx & Htag).
  exists key. split; [assumption | ].
  unfold remaining. destruct (Nat.ltb_spec j 4); [ | lia].
  rewrite Htag. reflexivity.
Qed.

Lemma Int_wrap_small (z : Z) : Int.in_range z -> Int.wrap z = z.
Proof.
  unfold Int.in_range, Int.min_int, Int.max_int, Int.wrap. intros Hz.
  rewrite Z.mod_small; lia.
Qed.

(** *** A round when no group but the last reaches the limit *)

Section Short.

Hypothesis Hlim : Int.in_range lim.
Hypothesis Hshort : forall i, (i < 4)%nat -> len (group ks i) < lim.

Lemma lim_pos : 0 < lim.
Proof. specialize (Hshort 0%nat). unfold len in Hshort. lia. Qed.

Lemma wrap_offset (j : nat) (c : Z) :
  (j < 4)%nat -> 0 <= c < len (group ks j) -> Int.wrap (c + 1) = c + 1.
Proof.
  intros Hj Hc. apply Int_wrap_small. specialize (Hshort j Hj).
  unfold Int.in_range, Int.min_int, Int.max_int in *. lia.
Qed.

Lemma roundKeys_short (fuel : nat) :
  forall (j : nat) (c cnt : Z),
    (j < 5)%nat -> 0 <= c ->
    ((j < 4)%nat -> c <= len (group ks j)) ->
    (j = 4%nat -> c = 0) ->
    (List.length (remaining ks j c) < fuel)%nat ->
    exists cnt',
      roundKeys fuel (itAt ks lim cnt j c) =
        Ok (remaining ks j c, itAt ks lim cnt' 4 (endOffset ks)).
Proof.
  induction fuel as [ | fuel IH]; intros j c cnt Hj Hc Hin Hlast Hfuel; [lia | ].
  pose proof lim_pos as Hpos.
  assert (Hclim : c < lim).
  { destruct (Nat.eq_dec j 4) as [-> | Hne]; [rewrite Hlast by reflexivity; lia | ].
    specialize (Hshort j ltac:(lia)). specialize (Hin ltac:(lia)). lia. }
  cbn [roundKeys]. rewrite GetNext_at by assumption. cbv zeta.
  rewrite <- (remaining_norm j c Hj Hc) in Hfuel |- *.
  assert (Hpos' : let j' := fst (norm ks j c) in let c' := snd (norm ks j c) in
                  (j' < 5)%nat /\ 0 <= c' /\
                  (j' = 4%nat -> c' = 0) /\ ((j' < 4)%nat -> c' < len (group ks j'))).
  { destruct (norm_cases j c Hj Hc) as [[-> Hstay] | (j' & -> & Hj' & _ & _ & Hstop)];
      cbn [fst snd]; repeat split; try lia.
    intros Hj4. pose proof (Zle_0_nat (List.length (group ks j'))) as Hnn.
    unfold len in *. lia. }
  cbv zeta in Hpos'. destruct Hpos' as (Hj' & Hc' & Hlast' & Hin').
  destruct (norm ks j c) as [j' c']. cbn [fst snd] in *.
  destruct (Nat.eqb_spec j' 4) as [-> | Hne].
  - rewrite Hlast' by reflexivity. unfold remaining, endOffset. cbn [Nat.ltb Nat.leb].
    destruct (len (group ks 4) =? 0); cbn [bind negb]; eexists; reflexivity.
  - destruct (remaining_step j' c') as (key & -> & Hrem); [lia | lia | ].
    cbn [bind negb]. rewrite (wrap_offset j' c') by lia.
    rewrite Hrem in Hfuel |- *. cbn [List.length] in Hfuel.
    destruct (IH j' (c' + 1) (U64.wrap (cnt + 1))) as (cnt' & ->); try lia.
    cbn [bind fst snd]. exists cnt'. reflexivity.
Qed.

End Short.

End Cursor.

(** ** The batch driver *)

Section Driver.

Context {DB : Type} `{HD : Database DB}.

Lemma issueDeletes_keys (ys : list (string * bytes)) :
  forall batch : MutBatch, map fst (snd (issueDeletes batch ys)) = ys.
Proof.
  induction ys as [ | [bucketKey key] ys IH]; intros batch; [reflexivity | ].
  cbn [issueDeletes]. destruct (Delete batch bucketKey key) as [batch' err].
  specialize (IH batch'). destruct (issueDeletes batch' ys) as [batch'' calls].
  cbn [snd map fst] in *. rewrite IH. reflexivity.
Qed.

(** The inner loop takes the keys of the round from the iterator and
    issues one delete for each, whatever the deletes answer; it logs the
    ones that failed. *)
Lemma deleteRound_roundKeys (fuel : nat) :
  forall (i : limitIterator) (batch : MutBatch) (ds : list deleteCall)
         (ws : list (string * bytes * error)),
    deleteRound fuel i batch ds ws =
      r <- roundKeys fuel i ;;
      Ok (snd r, fst (issueDeletes batch (fst r)),
          ds ++ snd (issueDeletes batch (fst r)),
          ws ++ failedDeletes (snd (issueDeletes batch (fst r)))).
Proof.
  induction fuel as [ | fuel IH]; intros i batch ds ws; [reflexivity | ].
  cbn [deleteRound roundKeys].
  destruct (GetNext i) as [[[[key bucketKey] ok] i'] | | ]; cbn [bind]; try reflexivity.
  destruct ok; cbn [negb].
  - destruct (Delete batch bucketKey key) as [batch' err] eqn:Hdel.
    assert (Hstep : forall ws',
               deleteRound fuel i' batch' (ds ++ [(bucketKey, key, err)]) ws' =
               r <- roundKeys fuel i' ;;
               Ok (snd r, fst (issueDeletes batch' (fst r)),
                   ds ++ (bucketKey, key, err) :: snd (issueDeletes batch' (fst r)),
                   ws' ++ failedDeletes (snd (issueDeletes batch' (fst r))))).
    { intros ws'. rewrite IH. destruct (roundKeys fuel i') as [[ys i''] | | ];
        cbn [bind]; try reflexivity.
      rewrite <- app_assoc. reflexivity. }
    destruct (roundKeys fuel i') as [[ys i''] | | ] eqn:Hround; cbn [bind fst snd].
    + cbn [issueDeletes]. rewrite Hdel.
      destruct (issueDeletes batch' ys) as [batch'' calls] eqn:Hissue.
      cbn [fst snd]. unfold failedDeletes at 1. cbn [flat_map snd fst].
      fold (failedDeletes calls).
      destruct err as [e | ]; rewrite Hstep; cbn [bind fst snd]; rewrite Hissue;
        cbn [fst snd app]; rewrite <- ?app_assoc; reflexivity.
    + destruct err; rewrite Hstep; reflexivity.
    + destruct err; rewrite Hstep; reflexivity.
  - cbn [bind fst snd issueDeletes]. unfold failedDeletes. cbn [flat_map].
    rewrite !app_nil_r. reflexivity.
Qed.

(** One turn of the outer loop: a round's keys are deleted in one batch,
    the batch is committed, and an error of the commit is returned at
    once. *)
Lemma batchDelete_loop_round (fuel : nat) (i i' : limitIterator) (d : DB)
    (rounds : list roundLog) (ys : list (string * bytes)) :
  HasMore i = Ok true ->
  roundKeys fuel (ResetLimit i) = Ok (ys, i') ->
  let batch := fst (issueDeletes (NewBatch d) ys) in
  let calls := snd (issueDeletes (NewBatch d) ys) in
  let round := {| deletes := calls;
                  warned := failedDeletes calls;
                  committed := snd (Commit d batch) |} in
  batchDelete_loop (S fuel) i d rounds =
    match snd (Commit d batch) with
    | Some e => Ok (fst (Commit d batch), rounds ++ [round], Some e)
    | None => batchDelete_loop fuel i' (fst (Commit d batch)) (rounds ++ [round])
    end.
Proof.
  intros Hmore Hround batch calls round. cbn [batchDelete_loop].
  rewrite Hmore. cbn [bind]. rewrite deleteRound_roundKeys, Hround.
  cbn [bind fst snd app]. fold batch calls.
  destruct (Commit d batch) as [d' [e | ]]; reflexivity.
Qed.

Lemma batchDelete_loop_done (fuel : nat) (i : limitIterator) (d : DB)
    (rounds : list roundLog) :
  HasMore i = Ok false -> batchDelete_loop (S fuel) i d rounds = Ok (d, rounds, None).
Proof. intros Hmore. cbn [batchDelete_loop]. rewrite Hmore. reflexivity. Qed.

End Driver.

(** ** [batchDelete] over the groups of [LimitIterator] *)

Section Rounds.

Context {DB : Type} `{HD : Database DB} `{HU : Dbutils}.
Hypothesis Hdistinct : distinctBuckets.
Variable ks : keysToRemove.
Variable lim : Z.

Lemma HasMore_init : HasMore (LimitIterator ks lim) = Ok true.
Proof.
  change (HasMore (LimitIterator ks lim))
    with (Ok (if (EmptyString =? name 4)%string && (len (group ks 4) =? 0)
              then false else true)).
  rewrite String.eqb_sym, (name_nonempty Hdistinct) by lia. reflexivity.
Qed.

Lemma GetNext_init :
  0 < lim -> GetNext (LimitIterator ks lim) = GetNext (itAt ks lim 0 0 0).
Proof.
  intros Hpos. unfold GetNext, updateBucket.
  change (currentBucket (itAt ks lim 0 0 0)) with (name 0).
  rewrite (name_nonempty Hdistinct) by lia.
  change (limit (itAt ks lim 0 0 0) <=? currentNum (itAt ks lim 0 0 0)) with (lim <=? 0).
  change (limit (LimitIterator ks lim) <=? currentNum (LimitIterator ks lim))
    with (lim <=? 0).
  destruct (Z.leb_spec lim 0); [lia | reflexivity].
Qed.

Lemma roundKeys_init (fuel : nat) :
  0 < lim -> roundKeys fuel (LimitIterator ks lim) = roundKeys fuel (itAt ks lim 0 0 0).
Proof.
  intros Hpos. destruct fuel as [ | fuel]; [reflexivity | ].
  cbn [roundKeys]. rewrite GetNext_init by assumption. reflexivity.
Qed.

(** *** No group but the last reaches the limit *)

Section Short.

Hypothesis Hlim : Int.in_range lim.
Hypothesis Hshort : forall i, (i < 4)%nat -> len (group ks i) < lim.

(** The first round takes every key of the four groups before the
    last, whatever their number. *)
Lemma first_round (fuel : nat) (d : DB) :
  (List.length (remaining ks 0 0) < fuel)%nat ->
  let batch := fst (issueDeletes (NewBatch d) (remaining ks 0 0)) in
  let calls := snd (issueDeletes (NewBatch d) (remaining ks 0 0)) in
  let round := {| deletes := calls;
                  warned := failedDeletes calls;
                  committed := snd (Commit d batch) |} in
  exists cnt,
    batchDelete_loop (S fuel) (LimitIterator ks lim) d [] =
      match snd (Commit d batch) with
      | Some e => Ok (fst (Commit d batch), [round], Some e)
      | None => batchDelete_loop fuel (itAt ks lim cnt 4 (endOffset ks))
                                 (fst (Commit d batch)) [round]
      end.
Proof.
  intros Hfuel batch calls round.
  destruct (roundKeys_short Hdistinct ks lim Hlim Hshort fuel 0 0 0) as (cnt & Hround);
    try lia.
  { intros _. unfold len. lia. }
  exists cnt.
  apply (batchDelete_loop_round fuel (LimitIterator ks lim) _ d []);
    [apply HasMore_init | ].
  change (ResetLimit (LimitIterator ks lim)) with (LimitIterator ks lim).
  rewrite roundKeys_init by (apply (lim_pos ks lim Hshort)). exact Hround.
Qed.

(** In the last group a round takes no key and moves one step. *)
Lemma roundKeys_last (fuel : nat) (cnt c : Z) :
  0 <= c < lim -> c < len (group ks 4) ->
  exists cnt',
    roundKeys (S fuel) (itAt ks lim cnt 4 c) = Ok ([], itAt ks lim cnt' 4 (c + 1)).
Proof.
  intros Hc Hlen. cbn [roundKeys]. rewrite (GetNext_at Hdistinct) by lia.
  cbv zeta. change (norm ks 4 c) with (4%nat, c). cbn [fst snd Nat.eqb].
  destruct (Z.eqb_spec (len (group ks 4)) c); [lia | ].
  cbn [bind negb]. rewrite Int_wrap_small.
  - eexists. reflexivity.
  - unfold Int.in_range, Int.min_int, Int.max_int in *. lia.
Qed.

(** From offset [c] of the last group, the loop runs one empty round
    per key that is left, when the group is no longer than the
    limit. *)
Lemma last_rounds (n : nat) :
  forall (fuel : nat) (cnt c : Z) (d : DB) (rounds : list roundLog),
    0 <= c -> c + Z.of_nat n = len (group ks 4) -> len (group ks 4) <= lim ->
    (2 * n < fuel)%nat ->
    batchDelete_loop fuel (itAt ks lim cnt 4 c) d rounds = Ok (emptyRounds n d rounds).
Proof.
  induction n as [ | n IH]; intros fuel cnt c d rounds Hc Hn Hle Hfuel.
  - destruct fuel as [ | fuel]; [lia | ].
    apply batchDelete_loop_done. rewrite (HasMore_at Hdistinct) by lia.
    destruct (Z.eqb_spec (len (group ks 4)) c); [reflexivity | lia].
  - destruct fuel as [ | [ | fuel]]; try lia.
    destruct (roundKeys_last fuel 0 c) as (cnt' & Hround); try lia.
    rewrite (batchDelete_loop_round (S fuel) (itAt ks lim cnt 4 c)
               (itAt ks lim cnt' 4 (c + 1)) d rounds []).
    + cbn [issueDeletes fst snd failedDeletes flat_map emptyRounds].
      destruct (Commit d (NewBatch d)) as [d' [e | ]]; [reflexivity | ].
      cbn [fst snd]. apply IH; lia.
    + rewrite (HasMore_at Hdistinct) by lia.
      destruct (Z.eqb_spec (len (group ks 4)) c); [lia | reflexivity].
    + exact Hround.
Qed.

End Short.

(** *** A group before the last reaches the limit *)

Section Long.

Hypothesis Hlim : Int.in_range lim.
Hypothesis Hpos : 0 < lim.
Variable j0 : nat.
Hypothesis Hj0 : (j0 < 4)%nat.
Hypothesis Hlong : lim <= len (group ks j0).
Hypothesis Hbefore : forall i, (i < j0)%nat -> len (group ks i) < lim.

(** A round that starts at or before group [j0] ends in it, at the
    offset [lim], when it has the fuel to end. *)
Lemma roundKeys_reaches_limit (fuel : nat) :
  forall (j : nat) (c cnt : Z),
    (j <= j0)%nat -> 0 <= c ->
    ((j < j0)%nat -> c <= len (group ks j)) ->
    (j = j0 -> c <= lim) ->
    (roundKeys fuel (itAt ks lim cnt j c) = OutOfFuel /\
     (fuel <= List.length (remaining ks j c))%nat) \/
    (exists ys cnt',
        roundKeys fuel (itAt ks lim cnt j c) = Ok (ys, itAt ks lim cnt' j0 lim)).
Proof.
  induction fuel as [ | fuel IH]; intros j c cnt Hj Hc Hin Hat;
    [left; split; [reflexivity | lia] | ].
  cbn [roundKeys].
  destruct (Z_lt_le_dec c lim) as [Hclim | Hclim].
  - rewrite (GetNext_at Hdistinct) by lia. cbv zeta.
    rewrite <- (remaining_norm ks j c) by lia.
    assert (Hnorm : let j' := fst (norm ks j c) in let c' := snd (norm ks j c) in
                    (j' <= j0)%nat /\ 0 <= c' < len (group ks j') /\ c' < lim).
    { destruct (norm_cases ks j c ltac:(lia) Hc)
        as [[-> Hstay] | (j' & -> & Hj' & Hend & Hgap & Hstop)]; cbn [fst snd].
      - destruct Hstay as [-> | Hne]; [lia | ].
        destruct (Nat.eq_dec j j0) as [-> | Hne0]; [lia | ].
        specialize (Hin ltac:(lia)). lia.
      - assert (Hle : (j' <= j0)%nat).
        { destruct (Nat.le_gt_cases j' j0) as [Hle | Hgt]; [exact Hle | exfalso].
          destruct (Nat.eq_dec j j0) as [-> | Hne0]; [lia | ].
          specialize (Hgap j0 ltac:(lia)). lia. }
        pose proof (Zle_0_nat (List.length (group ks j'))) as Hnn.
        unfold len in *. repeat split; try lia. }
    cbv zeta in Hnorm. destruct Hnorm as (Hj' & Hc' & Hc'lim).
    destruct (norm ks j c) as [j' c']. cbn [fst snd] in *.
    destruct (Nat.eqb_spec j' 4); [lia | ].
    destruct (remaining_step ks j' c') as (key & -> & Hrem); [lia | lia | ].
    cbn [bind negb]. rewrite Hrem. cbn [List.length].
    rewrite Int_wrap_small
      by (unfold Int.in_range, Int.min_int, Int.max_int in *; lia).
    destruct (IH j' (c' + 1) (U64.wrap (cnt + 1)))
      as [[-> Hfuel] | (ys & cnt' & ->)]; try lia; cbn [bind fst snd].
    + left. split; [reflexivity | lia].
    + right. eexists _, cnt'. reflexivity.
  - assert (j = j0) as ->.
    { destruct (Nat.eq_dec j j0) as [-> | Hne0]; [reflexivity | ].
      specialize (Hin ltac:(lia)). specialize (Hbefore j ltac:(lia)). lia. }
    assert (c = lim) as -> by (specialize (Hat eq_refl); lia).
    rewrite GetNext_at_limit by (cbn; lia). cbn [bind negb].
    right. exists [], cnt. reflexivity.
Qed.

(** At the limit in group [j0] the iterator is stuck: [GetNext] takes
    nothing and changes nothing, [ResetLimit] leaves the offset, and
    [HasMore] stays true. *)
Lemma stuck_state (cnt : Z) :
  GetNext (ResetLimit (itAt ks lim cnt j0 lim)) =
    Ok ([], EmptyString, false, ResetLimit (itAt ks lim cnt j0 lim)) /\
  HasMore (ResetLimit (itAt ks lim cnt j0 lim)) = Ok true /\
  HasMore (itAt ks lim cnt j0 lim) = Ok true.
Proof.
  change (ResetLimit (itAt ks lim cnt j0 lim)) with (itAt ks lim 0 j0 lim).
  split; [apply GetNext_at_limit; cbn; lia | ].
  rewrite !(HasMore_at Hdistinct) by lia.
  destruct (Nat.eqb_spec j0 4); [lia | ]. split; reflexivity.
Qed.

(** The commits succeed on the stores the run goes through. *)
Variable inv : DB -> Prop.
Hypothesis Hcommit : forall (d : DB) (b : MutBatch),
  inv d -> snd (Commit d b) = None /\ inv (fst (Commit d b)).

Lemma stuck_forever (fuel : nat) :
  forall (cnt : Z) (d : DB) (rounds : list roundLog),
    inv d -> batchDelete_loop fuel (itAt ks lim cnt j0 lim) d rounds = OutOfFuel.
Proof.
  induction fuel as [ | fuel IH]; intros cnt d rounds Hinv; [reflexivity | ].
  destruct (stuck_state cnt) as (Hnext & _ & Hmore).
  destruct fuel as [ | fuel].
  - cbn [batchDelete_loop]. rewrite Hmore. reflexivity.
  - rewrite (batchDelete_loop_round (S fuel) (itAt ks lim cnt j0 lim)
               (ResetLimit (itAt ks lim cnt j0 lim)) d rounds [] Hmore).
    + destruct (Hcommit d (fst (issueDeletes (NewBatch d) [])) Hinv) as [-> Hinv'].
      apply IH. exact Hinv'.
    + cbn [roundKeys]. rewrite Hnext. reflexivity.
Qed.

Lemma batchDelete_loop_diverges (fuel : nat) (d : DB) :
  inv d -> batchDelete_loop fuel (LimitIterator ks lim) d [] = OutOfFuel.
Proof.
  intros Hinv. destruct fuel as [ | fuel]; [reflexivity | ].
  destruct (roundKeys_reaches_limit fuel 0 0 0) as [[Hout _] | (ys & cnt & Hround)];
    try lia.
  - intros _. unfold len. lia.
  - cbn [batchDelete_loop]. rewrite HasMore_init. cbn [bind].
    rewrite deleteRound_roundKeys.
    change (ResetLimit (LimitIterator ks lim)) with (LimitIterator ks lim).
    rewrite roundKeys_init, Hout by assumption. reflexivity.
  - rewrite (batchDelete_loop_round fuel (LimitIterator ks lim)
               (itAt ks lim cnt j0 lim) d [] ys HasMore_init).
    + destruct (Hcommit d (fst (issueDeletes (NewBatch d) ys)) Hinv) as [-> Hinv'].
      apply stuck_forever. exact Hinv'.
    + change (ResetLimit (LimitIterator ks lim)) with (LimitIterator ks lim).
      rewrite roundKeys_init by assumption. exact Hround.
Qed.

(** With one unit of fuel more than there are keys before the last
    group, the first round does end, at the limit in group [j0]. *)
Lemma first_round_reaches_limit :
  exists ys cnt,
    roundKeys (S (List.length (remaining ks 0 0))) (LimitIterator ks lim) =
      Ok (ys, itAt ks lim cnt j0 lim).
Proof.
  rewrite roundKeys_init by assumption.
  destruct (roundKeys_reaches_limit (S (List.length (remaining ks 0 0))) 0 0 0)
    as [[_ Hfuel] | Hok]; try lia.
  - intros _. unfold len. lia.
  - exact Hok.
Qed.

End Long.

(** The first group, before the last, that reaches the limit. *)
Lemma first_long :
  (exists j, (j < 4)%nat /\ lim <= len (group ks j)) ->
  exists j0, (j0 < 4)%nat /\ lim <= len (group ks j0) /\
             forall i, (i < j0)%nat -> len (group ks i) < lim.
Proof.
  intros (j & Hj & Hlong).
  destruct (Z_lt_le_dec (len (group ks 0)) lim) as [H0 | H0];
    [ | exists 0%nat; repeat split; [lia | exact H0 | intros i Hi; lia]].
  destruct (Z_lt_le_dec (len (group ks 1)) lim) as [H1 | H1];
    [ | exists 1%nat; repeat split; [lia | exact H1 | ];
        intros i Hi; assert (i = 0%nat) as -> by lia; assumption].
  destruct (Z_lt_le_dec (len (group ks 2)) lim) as [H2 | H2];
    [ | exists 2%nat; repeat split; [lia | exact H2 | ];
        intros i Hi; destruct i as [ | [ | i]]; try assumption; lia].
  destruct (Z_lt_le_dec (len (group ks 3)) lim) as [H3 | H3];
    [ | exists 3%nat; repeat split; [lia | exact H3 | ];
        intros i Hi; destruct i as [ | [ | [ | i]]]; try assumption; lia].
  exfalso. destruct j as [ | [ | [ | [ | j]]]]; lia.
Qed.

End Rounds.

(** ** The scan *)

Section Scan.

Context `{HU : Dbutils} `{HC : Changeset}.

Lemma walk_recording {S : Type} (visit : walker S) (items : list cursorItem) :
  forall (s : S) (seen : list (bytes * bytes)),
    walkItems (recording visit) items (s, seen) =
      ((fst (walkItems visit items s), seen ++ visited visit items s),
       snd (walkItems visit items s)).
Proof.
  unfold visited.
  induction items as [ | [key v | e] rest IH]; intros s seen; cbn [walkItems fst snd].
  - rewrite app_nil_r. reflexivity.
  - unfold recording at 1 3. cbn [fst snd].
    destruct (visit s key v) as [[s' goOn] [e | ]]; cbn [fst snd]; [reflexivity | ].
    destruct goOn; cbn [fst snd]; [ | reflexivity].
    rewrite (IH s' (seen ++ [(key, v)])), (IH s' ([] ++ [(key, v)])).
    cbn [fst snd app]. rewrite <- app_assoc. reflexivity.
  - rewrite app_nil_r. reflexivity.
Qed.

Lemma visited_entry {S : Type} (visit : walker S) (key v : bytes)
    (rest : list cursorItem) (s : S) :
  visited visit (Entry key v :: rest) s =
    (key, v) :: match snd (visit s key v) with
                | Some _ => []
                | None => if snd (fst (visit s key v))
                          then visited visit rest (fst (fst (visit s key v)))
                          else []
                end.
Proof.
  unfold visited at 1. cbn [walkItems]. unfold recording at 1. cbn [fst snd].
  destruct (visit s key v) as [[s' goOn] [e | ]]; cbn [fst snd app]; [reflexivity | ].
  destruct goOn; cbn [fst snd]; [ | reflexivity].
  rewrite walk_recording. reflexivity.
Qed.

Variables blockNumFrom blockNumTo : Z.

(** The three cases of the account callback. *)
Lemma accountWalker_cases (ks : keysToRemove) (key v : bytes) :
  let ts := timestampOf PlainAccountChangeSetBucket (key, v) in
  (ts < blockNumFrom ->
   accountWalker blockNumFrom blockNumTo ks key v = (ks, true, None)) /\
  (blockNumFrom <= ts -> blockNumTo < ts ->
   accountWalker blockNumFrom blockNumTo ks key v = (ks, false, None)) /\
  (blockNumFrom <= ts <= blockNumTo ->
   accountWalker blockNumFrom blockNumTo ks key v =
     (collectAccount ks (key, v), true, None)).
Proof.
  unfold accountWalker, collectAccount, historyKeyOf, subjectOf, timestampOf, CopyBytes.
  cbn [fst snd].
  destruct (Mapper_Decode PlainAccountChangeSetBucket key v) as [[ts parsedK] e].
  cbn [fst snd]. unfold Z.gtb.
  destruct (Z.ltb_spec ts blockNumFrom), (Z.compare_spec ts blockNumTo);
    repeat split; intros; try lia; reflexivity.
Qed.

(** The three cases of the storage callback. *)
Lemma storageWalker_cases (ks : keysToRemove) (key v : bytes) :
  let ts := timestampOf PlainStorageChangeSetBucket (key, v) in
  (ts < blockNumFrom ->
   storageWalker blockNumFrom blockNumTo ks key v = (ks, true, None)) /\
  (blockNumFrom <= ts -> blockNumTo < ts ->
   storageWalker blockNumFrom blockNumTo ks key v = (ks, false, None)) /\
  (blockNumFrom <= ts <= blockNumTo ->
   storageWalker blockNumFrom blockNumTo ks key v =
     (collectStorage ks (key, v), true, None)).
Proof.
  unfold storageWalker, collectStorage, timestampOf, CopyBytes. cbn [fst snd].
  destruct (Mapper_Decode PlainStorageChangeSetBucket key v) as [[ts parsedK] e].
  cbn [fst snd]. unfold Z.gtb.
  destruct (Z.ltb_spec ts blockNumFrom), (Z.compare_spec ts blockNumTo);
    repeat split; intros; try lia; reflexivity.
Qed.

(** *** A walk with a callback that keeps the window *)

Section Window.

Variable bucketName : string.
Variable visit : walker keysToRemove.
Variable collect : keysToRemove -> bytes * bytes -> keysToRemove.

Hypothesis Hwindow : forall (ks : keysToRemove) (key v : bytes),
  let ts := timestampOf bucketName (key, v) in
  (ts < blockNumFrom -> visit ks key v = (ks, true, None)) /\
  (blockNumFrom <= ts -> blockNumTo < ts -> visit ks key v = (ks, false, None)) /\
  (blockNumFrom <= ts <= blockNumTo -> visit ks key v = (collect ks (key, v), true, None)).

(** An entry is before the window, in it, or after it. *)
Lemma window_trichotomy (kv : bytes * bytes) :
  let ts := timestampOf bucketName kv in
  (ts < blockNumFrom /\ inWindow bucketName blockNumFrom blockNumTo kv = false) \/
  (blockNumFrom <= ts /\ blockNumTo < ts /\
   inWindow bucketName blockNumFrom blockNumTo kv = false) \/
  (blockNumFrom <= ts <= blockNumTo /\
   inWindow bucketName blockNumFrom blockNumTo kv = true).
Proof.
  unfold inWindow. cbv zeta.
  destruct (Z.leb_spec blockNumFrom (timestampOf bucketName kv)),
           (Z.leb_spec (timestampOf bucketName kv) blockNumTo); cbn [andb]; lia.
Qed.

(** The callback never returns an error. *)
Lemma window_no_error (ks : keysToRemove) (key v : bytes) :
  snd (visit ks key v) = None.
Proof.
  destruct (Hwindow ks key v) as (Hskip & Hstop & Hin).
  destruct (window_trichotomy (key, v)) as [[Hlt _] | [(Hge & Hgt & _) | [Hmid _]]].
  - rewrite Hskip by assumption. reflexivity.
  - rewrite Hstop by assumption. reflexivity.
  - rewrite Hin by assumption. reflexivity.
Qed.

(** The walk collects, in order, the visited entries of the window,
    and nothing else. *)
Lemma walk_collects (items : list cursorItem) :
  forall ks : keysToRemove,
    fst (walkItems visit items ks) =
      fold_left collect
        (filter (inWindow bucketName blockNumFrom blockNumTo) (visited visit items ks))
        ks.
Proof.
  induction items as [ | [key v | e] rest IH]; intros ks; try reflexivity.
  rewrite visited_entry. cbn [walkItems].
  destruct (Hwindow ks key v) as (Hskip & Hstop & Hin).
  destruct (window_trichotomy (key, v)) as [[Hlt Hw] | [(Hge & Hgt & Hw) | [Hmid Hw]]];
    cbn [filter]; rewrite Hw.
  - rewrite Hskip by assumption. cbn [fst snd]. apply IH.
  - rewrite Hstop by assumption. reflexivity.
  - rewrite Hin by assumption. cbn [fst snd fold_left]. apply IH.
Qed.


(** Over a bucket that reads without failure the walk returns no
    error and visits the entries up to and including the first one
    past the window. *)
Lemma walk_visits (es : list (bytes * bytes)) :
  blockNumFrom <= blockNumTo ->
  forall ks : keysToRemove,
    visited visit (entryItems es) ks = upToFirstAfter bucketName blockNumTo es /\
    snd (walkItems visit (entryItems es) ks) = None.
Proof.
  intros Hrange.
  induction es as [ | [key v] es IH]; intros ks; [split; reflexivity | ].
  cbn [entryItems map fst snd upToFirstAfter walkItems]. rewrite visited_entry.
  fold (entryItems es).
  destruct (Hwindow ks key v) as (Hskip & Hstop & Hin).
  destruct (window_trichotomy (key, v)) as [[Hlt _] | [(Hge & Hgt & _) | [Hmid _]]];
    cbv zeta in *.
  - rewrite Hskip by assumption. cbn [fst snd].
    destruct (Z.ltb_spec blockNumTo (timestampOf bucketName (key, v))); [lia | ].
    destruct (IH ks) as [-> ->]. split; reflexivity.
  - rewrite Hstop by assumption. cbn [fst snd].
    destruct (Z.ltb_spec blockNumTo (timestampOf bucketName (key, v))); [ | lia].
    split; reflexivity.
  - rewrite Hin by assumption. cbn [fst snd].
    destruct (Z.ltb_spec blockNumTo (timestampOf bucketName (key, v))); [lia | ].
    destruct (IH (collect ks (key, v))) as [-> ->]. split; reflexivity.
Qed.

(** Up to the first entry past the window, all but the last entry are
    at or before its end. *)
Lemma upToFirstAfter_shape (es : list (bytes * bytes)) :
  upToFirstAfter bucketName blockNumTo es = es /\
  Forall (fun e => timestampOf bucketName e <= blockNumTo) es
  \/
  exists pre e post,
    es = pre ++ e :: post /\
    upToFirstAfter bucketName blockNumTo es = pre ++ [e] /\
    Forall (fun e' => timestampOf bucketName e' <= blockNumTo) pre /\
    blockNumTo < timestampOf bucketName e.
Proof.
  induction es as [ | e es IH]; [left; split; [reflexivity | constructor] | ].
  cbn [upToFirstAfter].
  destruct (Z.ltb_spec blockNumTo (timestampOf bucketName e)) as [Hgt | Hle].
  - right. exists [], e, es. repeat split; [constructor | assumption].
  - destruct IH as [[-> Hall] | (pre & e' & post & -> & -> & Hpre & Hgt)].
    + left. split; [reflexivity | constructor; assumption].
    + right. exists (e :: pre), e', post.
      repeat split; [constructor; assumption | assumption].
Qed.

(** In an ascending bucket nothing of the window lies behind the first
    entry past it. *)
Lemma ascending_window (es : list (bytes * bytes)) :
  ascending bucketName es ->
  filter (inWindow bucketName blockNumFrom blockNumTo)
         (upToFirstAfter bucketName blockNumTo es) =
  filter (inWindow bucketName blockNumFrom blockNumTo) es.
Proof.
  induction es as [ | e es IH]; [reflexivity | ].
  intros [Hhead Htail]. cbn [upToFirstAfter].
  destruct (Z.ltb_spec blockNumTo (timestampOf bucketName e)) as [Hgt | Hle].
  - assert (Hnone : filter (inWindow bucketName blockNumFrom blockNumTo) es = []).
    { clear IH Htail. induction Hhead as [ | e' es' He' _ IH]; [reflexivity | ].
      cbn [filter]. unfold inWindow at 1.
      destruct (Z.leb_spec (timestampOf bucketName e') blockNumTo); [lia | ].
      rewrite andb_false_r. exact IH. }
    cbn [filter]. rewrite Hnone. reflexivity.
  - cbn [filter]. rewrite (IH Htail). reflexivity.
Qed.

End Window.

End Scan.

(** ** The key collector *)

Section Collector.

Context `{HU : Dbutils} `{HC : Changeset}.

Lemma fold_collectAccount (l : list (bytes * bytes)) :
  forall ks : keysToRemove,
    fold_left collectAccount l ks =
      {| AccountHistoryKeys := AccountHistoryKeys ks ++ map historyKeyOf l;
         StorageHistoryKeys := StorageHistoryKeys ks;
         AccountChangeSet := AccountChangeSet ks ++ map fst l;
         StorageChangeSet := StorageChangeSet ks;
         StorageKeys := StorageKeys ks;
         IntermediateTrieHashKeys := IntermediateTrieHashKeys ks |}.
Proof.
  induction l as [ | kv l IH]; intros ks.
  - cbn [fold_left map]. rewrite !app_nil_r. destruct ks; reflexivity.
  - cbn [fold_left map]. rewrite IH. unfold collectAccount at 1 2 3 4 5 6.
    cbn [AccountHistoryKeys StorageHistoryKeys AccountChangeSet StorageChangeSet
         StorageKeys IntermediateTrieHashKeys].
    rewrite <- !app_assoc. reflexivity.
Qed.

Lemma fold_collectStorage (l : list (bytes * bytes)) :
  forall ks : keysToRemove,
    fold_left collectStorage l ks =
      {| AccountHistoryKeys := AccountHistoryKeys ks;
         StorageHistoryKeys := StorageHistoryKeys ks;
         AccountChangeSet := AccountChangeSet ks;
         StorageChangeSet := StorageChangeSet ks ++ map fst l;
         StorageKeys := StorageKeys ks;
         IntermediateTrieHashKeys := IntermediateTrieHashKeys ks |}.
Proof.
  induction l as [ | kv l IH]; intros ks.
  - cbn [fold_left map]. rewrite !app_nil_r. destruct ks; reflexivity.
  - cbn [fold_left map]. rewrite IH. unfold collectStorage at 1 2 3 4 5 6.
    cbn [AccountHistoryKeys StorageHistoryKeys AccountChangeSet StorageChangeSet
         StorageKeys IntermediateTrieHashKeys].
    rewrite <- !app_assoc. reflexivity.
Qed.

Lemma scansWindow_intro (bucketName : string) (blockNumFrom blockNumTo : Z)
    (visit : walker keysToRemove)
    (collect : keysToRemove -> bytes * bytes -> keysToRemove) :
  blockNumFrom <= blockNumTo ->
  (forall (ks : keysToRemove) (key v : bytes),
      let ts := timestampOf bucketName (key, v) in
      (ts < blockNumFrom -> visit ks key v = (ks, true, None)) /\
      (blockNumFrom <= ts -> blockNumTo < ts -> visit ks key v = (ks, false, None)) /\
      (blockNumFrom <= ts <= blockNumTo ->
       visit ks key v = (collect ks (key, v), true, None))) ->
  scansWindow bucketName blockNumFrom blockNumTo visit collect.
Proof.
  intros Hrange Hwindow. split; [ | split].
  - intros ks key v ts. destruct (Hwindow ks key v) as (Hskip & Hstop & Hin).
    repeat split; [exact Hskip | | exact Hin].
    intros Hgt. apply Hstop; subst ts; lia.
  - intros es ks.
    destruct (walk_visits blockNumFrom blockNumTo bucketName visit collect Hwindow
                es Hrange ks) as [Hvis Herr].
    pose proof (walk_collects blockNumFrom blockNumTo bucketName visit collect Hwindow
                  (entryItems es) ks) as Hcol.
    rewrite Hvis in Hcol. repeat split.
    + exact Hvis.
    + rewrite (surjective_pairing (walkItems visit (entryItems es) ks)).
      rewrite Hcol, Herr. reflexivity.
    + intros Hasc. rewrite Hcol.
      rewrite (ascending_window blockNumFrom blockNumTo bucketName es Hasc).
      reflexivity.
  - intros es. apply upToFirstAfter_shape.
Qed.

(** C5 (amended).  For a range with [from <= to], the callbacks of both
    walks of [Prune] skip an entry with timestamp below [blockNumFrom],
    collect an entry with timestamp in the range, and answer
    [continue = false] at an entry with timestamp above [blockNumTo]; so
    the walk visits the entries up to and including the first one past
    the range, which is the only visited entry with a timestamp above
    [blockNumTo], and no later one; it collects the visited entries of
    the range, which in an ascending bucket are all its entries of the
    range. *)
Theorem scan_stops_after_window (blockNumFrom blockNumTo : Z) :
  blockNumFrom <= blockNumTo ->
  scansWindow PlainAccountChangeSetBucket blockNumFrom blockNumTo
              (accountWalker blockNumFrom blockNumTo) collectAccount /\
  scansWindow PlainStorageChangeSetBucket blockNumFrom blockNumTo
              (storageWalker blockNumFrom blockNumTo) collectStorage.
Proof.
  intros Hrange. split; apply scansWindow_intro; try assumption.
  - intros ks key v. apply accountWalker_cases.
  - intros ks key v. apply storageWalker_cases.
Qed.

End Collector.

Section ScanExamples.

Import Sample.

Lemma scan_stops_after_window_witness :
scansWindow PlainAccountChangeSetBucket 0 10100 (accountWalker 0 10100) collectAccount /\
scansWindow PlainStorageChangeSetBucket 0 10100 (storageWalker 0 10100) collectStorage.
Proof.
apply (scan_stops_after_window 0 10100). lia.
Defined.

(** The claim C5 as it is written fails: over the bucket with the
  timestamps 5000, 10100, 10101 and 50000 and the range [(0, 10100)], the
  scan does visit an entry with a timestamp above 10100, the one of
  10101. *)
Lemma scan_visits_first_entry_after_window :
visited (accountWalker 0 10100) accountItems newKeysToRemove =
  [(key5000, []); (key10100, []); (key10101, [])] /\
~ Forall (fun kv => timestampOf PlainAccountChangeSetBucket kv <= 10100)
         (visited (accountWalker 0 10100) accountItems newKeysToRemove).
Proof.
split; [reflexivity | ].
intros Hall. rewrite Forall_forall in Hall.
specialize (Hall (key10101, [])).
assert (Hin : In (key10101, @nil byte)
                 (visited (accountWalker 0 10100) accountItems newKeysToRemove))
  by (cbn; auto).
specialize (Hall Hin). vm_compute in Hall. apply Hall. reflexivity.
Qed.

End ScanExamples.

Section CollectKeys.

Context {DB : Type} `{HD : Database DB} `{HU : Dbutils} `{HC : Changeset}.

Lemma storageWalker_no_error (blockNumFrom blockNumTo : Z) (ks : keysToRemove)
    (key v : bytes) :
  snd (storageWalker blockNumFrom blockNumTo ks key v) = None.
Proof.
  apply (window_no_error blockNumFrom blockNumTo PlainStorageChangeSetBucket
           (storageWalker blockNumFrom blockNumTo) collectStorage).
  intros ks' key' v'. apply storageWalker_cases.
Qed.


(** The keys of the first walk. *)
Lemma account_walk_keys (d : DB) (blockNumFrom blockNumTo : Z) :
  let accountEntries :=
    filter (inWindow PlainAccountChangeSetBucket blockNumFrom blockNumTo)
           (visited (accountWalker blockNumFrom blockNumTo)
                    (bucketCursor d PlainAccountChangeSetBucket) newKeysToRemove) in
  fst (Walk d PlainAccountChangeSetBucket (accountWalker blockNumFrom blockNumTo)
            newKeysToRemove) =
    {| AccountHistoryKeys := map historyKeyOf accountEntries;
       StorageHistoryKeys := [];
       AccountChangeSet := map fst accountEntries;
       StorageChangeSet := [];
       StorageKeys := [];
       IntermediateTrieHashKeys := [] |}.
Proof.
  intros accountEntries. unfold Walk.
  rewrite (walk_collects blockNumFrom blockNumTo PlainAccountChangeSetBucket
             (accountWalker blockNumFrom blockNumTo) collectAccount)
    by (intros ks key v; apply accountWalker_cases).
  fold accountEntries. rewrite fold_collectAccount. reflexivity.
Qed.

(** C9.  The keys [Prune] collects: every collected account change-set
    entry gives its raw key to [AccountChangeSet] and the key
    [CompositeKeySuffix (subjectKey, timestamp)] to [AccountHistoryKeys],
    both in the order of the walk; the storage walk, which runs when the
    account walk returned no error, gives the raw keys of its collected
    entries to [StorageChangeSet], never returns an error of its own and
    leaves [StorageHistoryKeys] empty. *)
Theorem collected_keys (d : DB) (blockNumFrom blockNumTo : Z) :
  let accountEntries :=
    filter (inWindow PlainAccountChangeSetBucket blockNumFrom blockNumTo)
           (visited (accountWalker blockNumFrom blockNumTo)
                    (bucketCursor d PlainAccountChangeSetBucket) newKeysToRemove) in
  let accountWalk :=
    Walk d PlainAccountChangeSetBucket (accountWalker blockNumFrom blockNumTo)
         newKeysToRemove in
  let storageEntries :=
    filter (inWindow PlainStorageChangeSetBucket blockNumFrom blockNumTo)
           (visited (storageWalker blockNumFrom blockNumTo)
                    (bucketCursor d PlainStorageChangeSetBucket) (fst accountWalk)) in
  let ks := fst (collectKeys d blockNumFrom blockNumTo) in
  AccountChangeSet ks = map fst accountEntries /\
  AccountHistoryKeys ks = map historyKeyOf accountEntries /\
  StorageHistoryKeys ks = [] /\
  StorageChangeSet ks = match snd accountWalk with
                        | None => map fst storageEntries
                        | Some _ => []
                        end /\
  (forall (ks' : keysToRemove) (key v : bytes),
      snd (storageWalker blockNumFrom blockNumTo ks' key v) = None).
Proof.
  intros accountEntries accountWalk storageEntries ks.
  pose proof (account_walk_keys d blockNumFrom blockNumTo) as Hacc.
  cbv zeta in Hacc. fold accountEntries accountWalk in Hacc.
  assert (Hks : ks = match snd accountWalk with
                     | None => fold_left collectStorage storageEntries (fst accountWalk)
                     | Some _ => fst accountWalk
                     end).
  { subst ks. unfold collectKeys. fold accountWalk.
    destruct accountWalk as [keys1 [e | ]] eqn:Hwalk; cbn [fst snd]; [reflexivity | ].
    unfold Walk.
    rewrite (walk_collects blockNumFrom blockNumTo PlainStorageChangeSetBucket
               (storageWalker blockNumFrom blockNumTo) collectStorage)
      by (intros ks' key v; apply storageWalker_cases).
    subst storageEntries. reflexivity. }
  rewrite Hks.
  destruct (snd accountWalk);
    [ | rewrite fold_collectStorage]; rewrite Hacc; cbn; repeat split;
    auto using storageWalker_no_error.
Qed.

End CollectKeys.

(** ** Errors of [Prune] *)

Section PruneErrors.

Context {DB : Type} `{HD : Database DB} `{HU : Dbutils} `{HC : Changeset}.




End PruneErrors.

Section PruneErrorExamples.

Import Sample.



End PruneErrorExamples.

(** ** Termination of [batchDelete] *)

(** C2.  When a key group other than the last holds at least [DeleteLimit]
    keys, and the commits of the store succeed, [batchDelete] never
    returns: the first round ends with the offset [currentNum] at the limit
    in such a group; from then on [GetNext] answers [ok = false] before it
    calls [updateBucket], [ResetLimit] leaves [currentNum] as it is, and
    [HasMore] stays true, so every later round takes no key. *)
Theorem batchDelete_never_terminates
    (DB : Type) (HD : Database DB) (HU : Dbutils) (inv : DB -> Prop)
    (d : DB) (ks : keysToRemove) :
  distinctBuckets ->
  (forall (d' : DB) (b : MutBatch),
      inv d' -> snd (Commit d' b) = None /\ inv (fst (Commit d' b))) ->
  inv d ->
  (exists j, (j < 4)%nat /\ DeleteLimit <= len (group ks j)) ->
  (forall fuel : nat, batchDelete fuel d ks = OutOfFuel) /\
  (exists j0,
      (j0 < 4)%nat /\
      (exists fuel ys cnt,
          roundKeys fuel (LimitIterator ks DeleteLimit) =
            Ok (ys, itAt ks DeleteLimit cnt j0 DeleteLimit)) /\
      (forall cnt : Z,
          let stuck := ResetLimit (itAt ks DeleteLimit cnt j0 DeleteLimit) in
          currentNum stuck = DeleteLimit /\
          GetNext stuck = Ok ([], EmptyString, false, stuck) /\
          HasMore stuck = Ok true)).
Proof.
  intros Hdistinct Hcommit Hinv Hlong.
  destruct (first_long ks DeleteLimit Hlong) as (j0 & Hj0 & Hlong0 & Hbefore).
  assert (Hlim : Int.in_range DeleteLimit)
    by (unfold Int.in_range, Int.min_int, Int.max_int, DeleteLimit; lia).
  assert (Hpos : 0 < DeleteLimit) by (unfold DeleteLimit; lia).
  split.
  - intros fuel. unfold batchDelete.
    apply (batchDelete_loop_diverges Hdistinct ks DeleteLimit Hlim Hpos j0 Hj0 Hlong0
             Hbefore inv Hcommit fuel d Hinv).
  - exists j0. split; [exact Hj0 | split].
    + eexists. apply (first_round_reaches_limit Hdistinct ks DeleteLimit Hlim Hpos
                        j0 Hj0 Hlong0 Hbefore).
    + intros cnt stuck.
      destruct (stuck_state Hdistinct ks DeleteLimit j0 Hj0 cnt)
        as (Hnext & Hmore & _).
      split; [reflexivity | split; assumption].
Qed.

Section TerminationExamples.

Import Sample.

Lemma sample_distinct : distinctBuckets.
Proof.
unfold distinctBuckets.
repeat (constructor; [cbn; intuition discriminate | ]). constructor.
Qed.

Lemma length_manyKeys (n : nat) : List.length (manyKeys n) = n.
Proof.
unfold manyKeys. generalize 0%N as start.
induction n as [ | n IH]; intros start; [reflexivity | ].
cbn [keysFrom List.length]. rewrite IH. reflexivity.
Qed.

Lemma batchDelete_never_terminates_witness :
(forall fuel : nat,
    batchDelete fuel emptyDb (historyOnly (Z.to_nat 70000)) = OutOfFuel) /\
(exists j0,
    (j0 < 4)%nat /\
    (exists fuel ys cnt,
        roundKeys fuel (LimitIterator (historyOnly (Z.to_nat 70000)) DeleteLimit) =
          Ok (ys, itAt (historyOnly (Z.to_nat 70000)) DeleteLimit cnt j0 DeleteLimit)) /\
    (forall cnt : Z,
        let stuck :=
          ResetLimit (itAt (historyOnly (Z.to_nat 70000)) DeleteLimit cnt j0 DeleteLimit) in
        currentNum stuck = DeleteLimit /\
        GetNext stuck = Ok ([], EmptyString, false, stuck) /\
        HasMore stuck = Ok true)).
Proof.
apply (batchDelete_never_terminates MemDb database dbutils
         (fun d => mem_failCommit d = None) emptyDb (historyOnly (Z.to_nat 70000))).
- exact sample_distinct.
- intros d' b Hok. cbn [Commit database]. unfold mem_commit. rewrite Hok.
  split; reflexivity.
- reflexivity.
- exists 0%nat. split; [lia | ].
  unfold len, historyOnly, group, AccountHistoryKeys.
  rewrite length_manyKeys, Z2Nat.id; unfold DeleteLimit; lia.
Defined.

End TerminationExamples.

(** ** What [batchDelete] deletes *)

Section Deletes.

Context {DB : Type} `{HD : Database DB} `{HU : Dbutils}.
Hypothesis Hdistinct : distinctBuckets.
Variable ks : keysToRemove.
Variable lim : Z.
Hypothesis Hlim : Int.in_range lim.
Hypothesis Hshort : forall i, (i < 4)%nat -> len (group ks i) < lim.
Hypothesis Hlast : len (group ks 4) <= lim.

Lemma length_remaining :
  List.length (remaining ks 0 0) =
    (List.length (group ks 0) + List.length (group ks 1)
     + List.length (group ks 2) + List.length (group ks 3))%nat.
Proof.
  unfold remaining, tagged. cbn [Nat.ltb Nat.leb Nat.sub seq flat_map Z.to_nat skipn].
  rewrite !length_app, !length_map. cbn [List.length]. lia.
Qed.

(** When no group before the last reaches the limit and the last is no
    longer than the limit, [batchDelete] returns: its first round deletes
    the keys of the four groups before the last, all in one batch, and
    every later round commits an empty batch, one round for each key of
    the last group but one; the keys of the last group are in no
    batch. *)
Lemma batchDelete_loop_short (fuel : nat) (d : DB) :
  (List.length (remaining ks 0 0) + 2 * List.length (group ks 4) + 1 < fuel)%nat ->
  let batch := fst (issueDeletes (NewBatch d) (remaining ks 0 0)) in
  let calls := snd (issueDeletes (NewBatch d) (remaining ks 0 0)) in
  let round := {| deletes := calls;
                  warned := failedDeletes calls;
                  committed := snd (Commit d batch) |} in
  batchDelete_loop fuel (LimitIterator ks lim) d [] =
    Ok (match snd (Commit d batch) with
        | Some e => (fst (Commit d batch), [round], Some e)
        | None => emptyRounds (List.length (group ks 4) - 1) (fst (Commit d batch)) [round]
        end).
Proof.
  intros Hfuel batch calls round.
  destruct fuel as [ | fuel]; [lia | ].
  destruct (first_round Hdistinct ks lim Hlim Hshort fuel d) as (cnt & ->); [lia | ].
  fold batch calls round.
  destruct (snd (Commit d batch)); [reflexivity | ].
  apply (last_rounds Hdistinct ks lim Hlim); unfold endOffset, len in *;
    destruct (Z.eqb_spec (Z.of_nat (List.length (group ks 4))) 0); lia.
Qed.

End Deletes.

(** C8.  In a round of [batchDelete] one delete is issued for every key
    the round takes from the iterator, whatever the deletes before it
    answered; the deletes that answered an error are the ones logged; the
    batch with all these deletes is committed; when the commit answers an
    error, [batchDelete] returns that error at once, [Prune] returns it, and
    the prune tick ends the worker with the checkpoint as it was. *)
Theorem delete_error_skipped_commit_error_returned
    (DB : Type) (HD : Database DB) (HU : Dbutils) (HC : Changeset) :
  (forall (fuel : nat) (i : limitIterator) (batch : MutBatch),
      deleteRound fuel i batch [] [] =
        r <- roundKeys fuel i ;;
        Ok (snd r, fst (issueDeletes batch (fst r)),
            snd (issueDeletes batch (fst r)),
            failedDeletes (snd (issueDeletes batch (fst r))))) /\
  (forall (batch : MutBatch) (ys : list (string * bytes)),
      map fst (snd (issueDeletes batch ys)) = ys) /\
  (forall (fuel : nat) (i i' : limitIterator) (d : DB) (rounds : list roundLog)
          (ys : list (string * bytes)),
      HasMore i = Ok true ->
      roundKeys fuel (ResetLimit i) = Ok (ys, i') ->
      let batch := fst (issueDeletes (NewBatch d) ys) in
      let calls := snd (issueDeletes (NewBatch d) ys) in
      let round := {| deletes := calls;
                      warned := failedDeletes calls;
                      committed := snd (Commit d batch) |} in
      batchDelete_loop (S fuel) i d rounds =
        match snd (Commit d batch) with
        | Some e => Ok (fst (Commit d batch), rounds ++ [round], Some e)
        | None => batchDelete_loop fuel i' (fst (Commit d batch)) (rounds ++ [round])
        end) /\
  (forall (fuel : nat) (d d' : DB) (blockNumFrom blockNumTo : Z)
          (rounds : list roundLog) (e : error),
      snd (collectKeys d blockNumFrom blockNumTo) = None ->
      batchDelete fuel d (fst (collectKeys d blockNumFrom blockNumTo))
        = Ok (d', rounds, Some e) ->
      Prune fuel d blockNumFrom blockNumTo = Ok (d', rounds, Some e)) /\
  (forall (Chain : Type) (fuel : nat) (p : BasicPruner DB Chain) (number from to : Z)
          (d' : DB) (rounds : list roundLog) (e : error),
      calculateNumOfPrunedBlocks (Uint64 number) (LastPrunedBlockNum p)
        (BlocksBeforePruning (config p)) (BlocksToPrune (config p)) = (from, to, true) ->
      Prune fuel (db p) from to = Ok (d', rounds, Some e) ->
      pruneTick fuel p (Some {| Number := Some number |}) =
        Ok (setPruned p d' (LastPrunedBlockNum p), rounds, Some e, false)).
Proof.
  split; [ | split; [ | split; [ | split]]].
  - intros fuel i batch. rewrite deleteRound_roundKeys. reflexivity.
  - intros batch ys. apply issueDeletes_keys.
  - intros fuel i i' d rounds ys Hmore Hround. apply batchDelete_loop_round; assumption.
  - intros fuel d d' blockNumFrom blockNumTo rounds e Hcollect Hdelete. unfold Prune.
    destruct (collectKeys d blockNumFrom blockNumTo) as [keys err].
    cbn [fst snd] in *. subst err. exact Hdelete.
  - intros Chain fuel p number from to d' rounds e Hcalc Hprune.
    unfold pruneTick. cbn [Number]. rewrite Hcalc. cbn [negb]. rewrite Hprune.
    reflexivity.
Qed.

Section DeleteExamples.

Import Sample.

(** Five keys of which the third fails to delete: the other four are
  deleted, the failure is logged, the batch is committed. *)
Lemma delete_error_skipped_commit_error_returned_witness :
batchDelete_loop 7 (LimitIterator fiveKeys DeleteLimit) flakyDb [] =
  Ok ({| mem_buckets := [(AccountsHistoryBucket, [Entry [xb3] []])];
         mem_failDelete := [[xb3]];
         mem_failCommit := None |},
      [{| deletes := [(AccountsHistoryBucket, [xb1], None);
                      (AccountsHistoryBucket, [xb2], None);
                      (AccountsHistoryBucket, [xb3], Some errDelete);
                      (AccountsHistoryBucket, [xb4], None);
                      (AccountsHistoryBucket, [xb5], None)];
          warned := [(AccountsHistoryBucket, [xb3], errDelete)];
          committed := None |}],
      None) /\
batchDelete_loop 7 (LimitIterator fiveKeys DeleteLimit) readOnlyDb [] =
  Ok (readOnlyDb,
      [{| deletes := [(AccountsHistoryBucket, [xb1], None);
                      (AccountsHistoryBucket, [xb2], None);
                      (AccountsHistoryBucket, [xb3], None);
                      (AccountsHistoryBucket, [xb4], None);
                      (AccountsHistoryBucket, [xb5], None)];
          warned := [];
          committed := Some errCommit |}],
      Some errCommit).
Proof.
destruct (delete_error_skipped_commit_error_returned MemDb database dbutils changeset)
  as (_ & _ & Hround & _).
split.
- rewrite (Hround 6%nat (LimitIterator fiveKeys DeleteLimit)
             (itAt fiveKeys DeleteLimit 5 4 0) flakyDb []
             (map (fun key => (AccountsHistoryBucket, key)) (AccountHistoryKeys fiveKeys)));
    reflexivity.
- rewrite (Hround 6%nat (LimitIterator fiveKeys DeleteLimit)
             (itAt fiveKeys DeleteLimit 5 4 0) readOnlyDb []
             (map (fun key => (AccountsHistoryBucket, key)) (AccountHistoryKeys fiveKeys)));
    reflexivity.
Defined.

(** C1: the code at a failing input.  From a store with one account
    change and one storage change in the range, [Prune] collects three
    keys, the last of them in [StorageChangeSet].  With a limit below, at
    and above that number the rounds end with the two account keys deleted
    and the storage key in no batch; [Prune] returns no error and the
    storage change is still in the store. *)
Theorem last_group_is_never_taken :
  let ks := fst (collectKeys bothDb 0 10100) in
  let taken := [(AccountsHistoryBucket, [xa1; x13; x88], None);
                (PlainAccountChangeSetBucket, key5000, None)] in
  let round := {| deletes := taken; warned := []; committed := None |} in
  ks = {| AccountHistoryKeys := [[xa1; x13; x88]];
          StorageHistoryKeys := [];
          AccountChangeSet := [key5000];
          StorageChangeSet := [storageKey5000];
          StorageKeys := [];
          IntermediateTrieHashKeys := [] |} /\
  batchDelete_loop 10 (LimitIterator ks 2) bothDb [] = Ok (bothDbPruned, [round], None) /\
  batchDelete_loop 10 (LimitIterator ks 3) bothDb [] = Ok (bothDbPruned, [round], None) /\
  batchDelete 10 bothDb ks = Ok (bothDbPruned, [round], None) /\
  Prune 10 bothDb 0 10100 = Ok (bothDbPruned, [round], None) /\
  bucketCursor bothDbPruned PlainStorageChangeSetBucket = [Entry storageKey5000 []].
Proof.
  cbv zeta. repeat split; vm_compute; reflexivity.
Qed.

End DeleteExamples.

Section RoundSizeExamples.

Import Sample.

(** C3: the code at a failing input.  With 40000 account change-set
  entries to prune, which give 40000 history keys and 40000 raw keys,
  [batchDelete] returns after one round, and the one batch it commits
  holds 80000 deletes, more than [DeleteLimit]. *)
Theorem round_exceeds_delete_limit :
exists (d' : MemDb) (round : roundLog),
  batchDelete (Z.to_nat 80002) emptyDb (accountsOnly (Z.to_nat 40000))
    = Ok (d', [round], None) /\
  len (deletes round) = 80000 /\
  DeleteLimit < len (deletes round).
Proof.
set (ks := accountsOnly (Z.to_nat 40000)).
assert (Hlen : forall i, (i < 4)%nat -> len (group ks i) <= 40000).
{ intros i Hi. unfold len.
  destruct i as [ | [ | [ | [ | i]]]]; try lia; cbn [group ks accountsOnly
    AccountHistoryKeys StorageHistoryKeys StorageKeys AccountChangeSet List.length];
    rewrite ?length_manyKeys; lia. }
assert (Hrem : List.length (remaining ks 0 0) = Z.to_nat 80000).
{ rewrite length_remaining.
  cbn [group ks accountsOnly AccountHistoryKeys StorageHistoryKeys StorageKeys
       AccountChangeSet List.length].
  rewrite !length_manyKeys. lia. }
pose proof (batchDelete_loop_short sample_distinct ks DeleteLimit) as Hrun.
specialize (Hrun ltac:(unfold Int.in_range, Int.min_int, Int.max_int, DeleteLimit; lia)).
specialize (Hrun ltac:(intros i Hi; specialize (Hlen i Hi); unfold DeleteLimit; lia)).
specialize (Hrun ltac:(unfold DeleteLimit; cbn; lia) (Z.to_nat 80002) emptyDb).
specialize (Hrun ltac:(rewrite Hrem; cbn [group ks accountsOnly StorageChangeSet
                                           List.length]; lia)).
cbv zeta in Hrun.
set (calls := snd (issueDeletes (NewBatch emptyDb) (remaining ks 0 0))) in *.
set (batch := fst (issueDeletes (NewBatch emptyDb) (remaining ks 0 0))) in *.
change (snd (Commit emptyDb batch)) with (@None error) in Hrun.
cbn [group ks accountsOnly StorageChangeSet List.length Nat.sub emptyRounds] in Hrun.
eexists _, _. split; [exact Hrun | ].
cbn [deletes].
assert (Hcalls : len calls = 80000).
{ pose proof (length_map fst calls) as Hmap. unfold calls in Hmap at 1.
  rewrite issueDeletes_keys, Hrem in Hmap. unfold len, deleteCall in *. lia. }
rewrite Hcalls. unfold DeleteLimit. lia.
Qed.

End RoundSizeExamples.

(** ** The checkpoint in the store *)

Lemma valueOf_byteOf (x : Z) :
  LittleEndian.valueOf (LittleEndian.byteOf x) = x mod 2 ^ 8.
Proof.
  unfold LittleEndian.valueOf, LittleEndian.byteOf.
  change (2 ^ 8) with 256.
  pose proof (Z.mod_pos_bound x 256 ltac:(lia)) as Hmod.
  destruct (Byte.of_N (Z.to_N (x mod 256))) as [b | ] eqn:Hof.
  - apply Byte.to_of_N in Hof. rewrite Hof. lia.
  - apply Byte.of_N_None_iff in Hof. lia.
Qed.

Lemma valueOf_range (b : byte) : 0 <= LittleEndian.valueOf b < 2 ^ 8.
Proof.
  unfold LittleEndian.valueOf. pose proof (Byte.to_N_bounded b). lia.
Qed.

Lemma testbit_u64_high (v n : Z) : U64.in_range v -> 64 <= n -> Z.testbit v n = false.
Proof.
  unfold U64.in_range, U64.modulus. intros Hv Hn.
  rewrite <- (Z.mod_small v (2 ^ 64)) by lia.
  apply Z.mod_pow2_bits_high. lia.
Qed.

Lemma Uint64_eight (b0 b1 b2 b3 b4 b5 b6 b7 : byte) (rest : bytes) :
  LittleEndian.Uint64 (b0 :: b1 :: b2 :: b3 :: b4 :: b5 :: b6 :: b7 :: rest) =
    Ok (Z.lor (LittleEndian.valueOf b0)
       (Z.lor (Z.shiftl (LittleEndian.valueOf b1) 8)
       (Z.lor (Z.shiftl (LittleEndian.valueOf b2) 16)
       (Z.lor (Z.shiftl (LittleEndian.valueOf b3) 24)
       (Z.lor (Z.shiftl (LittleEndian.valueOf b4) 32)
       (Z.lor (Z.shiftl (LittleEndian.valueOf b5) 40)
       (Z.lor (Z.shiftl (LittleEndian.valueOf b6) 48)
              (Z.shiftl (LittleEndian.valueOf b7) 56)))))))).
Proof. reflexivity. Qed.

(** Decoding the eight bytes of a [uint64] gives it back. *)
Lemma Uint64_PutUint64 (v : Z) :
  U64.in_range v -> LittleEndian.Uint64 (LittleEndian.PutUint64 v) = Ok v.
Proof.
  intros Hv. unfold LittleEndian.PutUint64. rewrite Uint64_eight.
  f_equal. apply Z.bits_inj'. intros n Hn.
  rewrite !Z.lor_spec, !Z.shiftl_spec, !valueOf_byteOf by lia.
  rewrite !Z.testbit_mod_pow2 by lia.
  assert (Hbit : forall k, 0 <= k -> 0 <= n - k ->
                   Z.testbit (Z.shiftr v k) (n - k) = Z.testbit v n).
  { intros k Hk Hnk. rewrite Z.shiftr_spec by lia. f_equal. lia. }
  assert (Hneg : forall k a, n - k < 0 -> Z.testbit a (n - k) = false).
  { intros k a Hnk. apply Z.testbit_neg_r. lia. }
  destruct (Z_lt_le_dec n 64) as [Hlt | Hge].
  - assert (Hcase : n < 8 \/ 8 <= n < 16 \/ 16 <= n < 24 \/ 24 <= n < 32 \/
                    32 <= n < 40 \/ 40 <= n < 48 \/ 48 <= n < 56 \/ 56 <= n < 64) by lia.
    repeat match goal with
           | |- context [(?i <? 8)] => destruct (Z.ltb_spec i 8)
           end;
      cbn [andb orb];
      rewrite ?Hbit by lia; rewrite ?(Hneg 8), ?(Hneg 16), ?(Hneg 24), ?(Hneg 32),
        ?(Hneg 40), ?(Hneg 48), ?(Hneg 56) by lia;
      rewrite ?orb_false_r, ?orb_false_l; try reflexivity; exfalso; lia.
  - rewrite (testbit_u64_high v n Hv Hge).
    repeat match goal with
           | |- context [(?i <? 8)] => destruct (Z.ltb_spec i 8)
           end; cbn [andb orb]; try reflexivity; exfalso; lia.
Qed.

(** ** The cursor over every input *)

Section Reach.

Context {DB : Type} `{HD : Database DB} `{HU : Dbutils}.
Hypothesis Hdistinct : distinctBuckets.
Variable ks : keysToRemove.
Variable lim : Z.
Hypothesis Hlim : Int.in_range lim.

Lemma keysInOrder_remaining : remaining ks 0 0 = keysInOrder ks.
Proof.
  unfold remaining, keysInOrder, tagged.
  cbn [Nat.ltb Nat.leb Nat.sub seq flat_map Z.to_nat skipn group].
  rewrite app_nil_r. reflexivity.
Qed.

(** One call of [GetNext] from a reachable position: no panic; the
    position afterwards is reachable; a key it takes is the next key in
    traversal order. *)
Lemma GetNext_reach (cnt : Z) (j : nat) (c : Z) :
  reachablePosition ks lim j c ->
  match GetNext (itAt ks lim cnt j c) with
  | Ok (key, b, ok, i') =>
      exists cnt' j' c',
        i' = itAt ks lim cnt' j' c' /\
        reachablePosition ks lim j' c' /\
        remaining ks j c = (if ok then [(b, key)] else []) ++ remaining ks j' c'
  | _ => False
  end.
Proof.
  intros ((Hj & Hc & Hin) & Hleft & Hmax & Hstart).
  destruct (Z_lt_le_dec c lim) as [Hclim | Hclim].
  - rewrite (GetNext_at Hdistinct) by assumption. cbv zeta.
    rewrite <- (remaining_norm ks j c Hj Hc).
    assert (Hnorm : let j' := fst (norm ks j c) in let c' := snd (norm ks j c) in
                    (j' < 5)%nat /\ 0 <= c' < lim /\
                    ((j' < 4)%nat -> c' < len (group ks j')) /\
                    (forall i, (i < j')%nat -> len (group ks i) < lim)).
    { destruct (norm_cases ks j c Hj Hc)
        as [[-> Hstay] | (j' & -> & Hj' & Hend & Hgap & Hstop)]; cbn [fst snd].
      - repeat split; try lia; try exact Hleft.
      - pose proof (Zle_0_nat (List.length (group ks j'))) as Hnn.
        repeat split; try (unfold len in *; lia).
        intros i Hi. destruct (Nat.lt_ge_cases i j) as [Hlt | Hge];
          [apply Hleft; exact Hlt | ].
        destruct (Nat.eq_dec i j) as [-> | Hne]; [lia | ].
        rewrite Hgap by lia. lia. }
    cbv zeta in Hnorm. destruct Hnorm as (Hj' & Hc' & Hin' & Hleft').
    destruct (norm ks j c) as [j' c']. cbn [fst snd] in *.
    assert (Hwrap : Int.wrap (c' + 1) = c' + 1).
    { apply Int_wrap_small. unfold Int.in_range, Int.min_int, Int.max_int in *. lia. }
    rewrite Hwrap.
    destruct (Nat.eqb_spec j' 4) as [-> | Hne].
    + destruct (Z.eqb_spec (len (group ks 4)) c') as [Hfull | Hnot].
      * exists cnt, 4%nat, c'. split; [reflexivity | split; [ | reflexivity]].
        repeat split; try lia. exact Hleft'.
      * eexists _, 4%nat, (c' + 1). split; [reflexivity | split; [ | reflexivity]].
        repeat split; try lia. exact Hleft'.
    + destruct (remaining_step ks j' c') as (key & -> & Hrem); [lia | lia | ].
      cbn [bind]. eexists _, j', (c' + 1).
      split; [reflexivity | split; [ | exact Hrem]].
      repeat split; try lia. exact Hleft'.
  - rewrite GetNext_at_limit by (cbn; lia).
    exists cnt, j, c. split; [reflexivity | split; [ | reflexivity]].
    repeat split; assumption.
Qed.

Lemma roundKeys_reach (fuel : nat) :
  forall (cnt : Z) (j : nat) (c : Z),
    reachablePosition ks lim j c ->
    match roundKeys fuel (itAt ks lim cnt j c) with
    | Ok (ys, i') =>
        exists cnt' j' c',
          i' = itAt ks lim cnt' j' c' /\
          reachablePosition ks lim j' c' /\
          remaining ks j c = ys ++ remaining ks j' c'
    | Panic => False
    | OutOfFuel => True
    end.
Proof.
  induction fuel as [ | fuel IH]; intros cnt j c Hreach; [exact I | ].
  cbn [roundKeys]. pose proof (GetNext_reach cnt j c Hreach) as Hnext.
  destruct (GetNext (itAt ks lim cnt j c)) as [[[[key b] ok] i1] | | ];
    try contradiction.
  destruct Hnext as (cnt1 & j1 & c1 & -> & Hreach1 & Hrem1). cbn [bind].
  destruct ok; cbn [negb].
  - specialize (IH cnt1 j1 c1 Hreach1).
    destruct (roundKeys fuel (itAt ks lim cnt1 j1 c1)) as [[ys i2] | | ];
      cbn [bind fst snd]; try assumption.
    destruct IH as (cnt2 & j2 & c2 & -> & Hreach2 & Hrem2).
    exists cnt2, j2, c2. split; [reflexivity | split; [assumption | ]].
    rewrite Hrem1, Hrem2. reflexivity.
  - exists cnt1, j1, c1. split; [reflexivity | split; assumption].
Qed.

(** A round from an iterator at a reachable position. *)
Lemma round_reach (fuel : nat) (i : limitIterator) (j : nat) (c : Z) :
  cursorAt ks lim i j c ->
  reachablePosition ks lim j c ->
  match roundKeys fuel (ResetLimit i) with
  | Ok (ys, i') =>
      exists j' c',
        cursorAt ks lim i' j' c' /\
        reachablePosition ks lim j' c' /\
        remaining ks j c = ys ++ remaining ks j' c'
  | Panic => False
  | OutOfFuel => True
  end.
Proof.
  intros [(cnt & ->) | (-> & -> & ->)] Hreach.
  - change (ResetLimit (itAt ks lim cnt j c)) with (itAt ks lim 0 j c).
    pose proof (roundKeys_reach fuel 0 j c Hreach) as Hround.
    destruct (roundKeys fuel (itAt ks lim 0 j c)) as [[ys i'] | | ]; try assumption.
    destruct Hround as (cnt' & j' & c' & -> & Hreach' & Hrem).
    exists j', c'. split; [left; exists cnt'; reflexivity | split; assumption].
  - change (ResetLimit (LimitIterator ks lim)) with (LimitIterator ks lim).
    destruct (Z_lt_le_dec 0 lim) as [Hpos | Hneg].
    + rewrite (roundKeys_init Hdistinct) by assumption.
      pose proof (roundKeys_reach fuel 0 0%nat 0 Hreach) as Hround.
      destruct (roundKeys fuel (itAt ks lim 0 0 0)) as [[ys i'] | | ]; try assumption.
      destruct Hround as (cnt' & j' & c' & -> & Hreach' & Hrem).
      exists j', c'. split; [left; exists cnt'; reflexivity | split; assumption].
    + destruct fuel as [ | fuel]; [exact I | ].
      cbn [roundKeys]. rewrite GetNext_at_limit by (cbn; lia). cbn [bind negb].
      exists 0%nat, 0. split; [right; auto | split; [assumption | reflexivity]].
Qed.

Lemma HasMore_cursor (i : limitIterator) (j : nat) (c : Z) :
  cursorAt ks lim i j c -> (j < 5)%nat ->
  HasMore i = Ok (negb ((j =? 4)%nat && (len (group ks 4) =? c))).
Proof.
  intros [(cnt & ->) | (-> & -> & ->)] Hj.
  - apply (HasMore_at Hdistinct). exact Hj.
  - apply (HasMore_init Hdistinct).
Qed.

Lemma takenKeys_app (rounds : list roundLog) (round : roundLog) :
  takenKeys (rounds ++ [round]) = takenKeys rounds ++ map fst (deletes round).
Proof.
  unfold takenKeys. rewrite flat_map_app. cbn [flat_map]. rewrite app_nil_r. reflexivity.
Qed.

(** The outer loop from an iterator at a reachable position: no panic;
    when it returns, the keys of its rounds are the keys between the
    position it started at and the position it stopped at. *)
Lemma batchDelete_loop_reach (fuel : nat) :
  forall (i : limitIterator) (j : nat) (c : Z) (d : DB) (rounds0 : list roundLog),
    cursorAt ks lim i j c ->
    reachablePosition ks lim j c ->
    match batchDelete_loop fuel i d rounds0 with
    | Ok (d', rounds, err) =>
        exists j' c',
          reachablePosition ks lim j' c' /\
          takenKeys rounds ++ remaining ks j' c' = takenKeys rounds0 ++ remaining ks j c /\
          (err = None -> j' = 4%nat /\ c' = len (group ks 4))
    | Panic => False
    | OutOfFuel => True
    end.
Proof.
  induction fuel as [ | fuel IH]; intros i j c d rounds0 Hat Hreach; [exact I | ].
  cbn [batchDelete_loop].
  rewrite (HasMore_cursor i j c Hat) by (apply Hreach). cbn [bind].
  destruct ((j =? 4)%nat && (len (group ks 4) =? c)) eqn:Hend; cbn [negb].
  - exists j, c. split; [assumption | split; [reflexivity | ]].
    intros _. apply andb_true_iff in Hend. destruct Hend as [Hj4 Hc4].
    apply Nat.eqb_eq in Hj4. apply Z.eqb_eq in Hc4. split; [assumption | lia].
  - rewrite deleteRound_roundKeys.
    pose proof (round_reach fuel i j c Hat Hreach) as Hround.
    destruct (roundKeys fuel (ResetLimit i)) as [[ys i1] | | ]; try assumption.
    destruct Hround as (j1 & c1 & Hat1 & Hreach1 & Hrem1).
    cbn [bind fst snd app].
    set (batch := fst (issueDeletes (NewBatch d) ys)).
    set (calls := snd (issueDeletes (NewBatch d) ys)).
    assert (Hkeys : map fst calls = ys) by apply issueDeletes_keys.
    destruct (Commit d batch) as [d1 [e | ]].
    + exists j1, c1. split; [assumption | split; [ | discriminate]].
      rewrite takenKeys_app. cbn [deletes]. rewrite Hkeys, Hrem1, app_assoc. reflexivity.
    + specialize (IH i1 j1 c1 d1
                    (rounds0 ++ [{| deletes := calls; warned := failedDeletes calls;
                                    committed := None |}]) Hat1 Hreach1).
      destruct (batchDelete_loop fuel i1 d1 _) as [[[d' rounds] err] | | ];
        try assumption.
      destruct IH as (j' & c' & Hreach' & Hkeys' & Hdone).
      exists j', c'. split; [assumption | split; [ | assumption]].
      rewrite Hkeys', takenKeys_app. cbn [deletes].
      rewrite Hkeys, Hrem1, app_assoc. reflexivity.
Qed.

Lemma start_reachable : reachablePosition ks lim 0 0.
Proof.
  repeat split; try lia.
  intros _. unfold len. lia.
Qed.

End Reach.

Section ReachTheorems.

Context {DB : Type} `{HD : Database DB} `{HU : Dbutils}.

(** X3.  For every [keysToRemove], every limit and every store, when the
    loop of [batchDelete] returns, the deletes it has issued, over all its
    rounds, are a beginning of the keys of [AccountHistoryKeys],
    [StorageHistoryKeys], [StorageKeys] and [AccountChangeSet], in this
    order and each with the bucket of its group: no key is deleted twice,
    out of order or under another bucket.  When it returns without error,
    they are all of these keys. *)
Theorem deleted_keys_in_traversal_order (ks : keysToRemove) (lim : Z) (fuel : nat)
    (d d' : DB) (rounds : list roundLog) (err : option error) :
  distinctBuckets ->
  Int.in_range lim ->
  batchDelete_loop fuel (LimitIterator ks lim) d [] = Ok (d', rounds, err) ->
  (exists rest, takenKeys rounds ++ rest = keysInOrder ks) /\
  (err = None -> takenKeys rounds = keysInOrder ks).
Proof.
  intros Hdistinct Hlim Hrun.
  pose proof (batchDelete_loop_reach Hdistinct ks lim Hlim fuel (LimitIterator ks lim)
                0%nat 0 d [] (or_intror (conj eq_refl (conj eq_refl eq_refl)))
                (start_reachable ks lim)) as Hreach.
  rewrite Hrun in Hreach. destruct Hreach as (j' & c' & _ & Hkeys & Hdone).
  cbn [takenKeys flat_map app] in Hkeys. rewrite keysInOrder_remaining in Hkeys.
  split.
  - exists (remaining ks j' c'). exact Hkeys.
  - intros Herr. destruct (Hdone Herr) as [-> _].
    change (remaining ks 4 c') with (@nil (string * bytes)) in Hkeys.
    rewrite app_nil_r in Hkeys. exact Hkeys.
Qed.

(** X4.  For every [keysToRemove], every limit and every store, the loop
    of [batchDelete] does not panic: no index of [GetNext], [updateBucket]
    or [HasMore] is out of range. *)
Theorem batchDelete_loop_never_panics (ks : keysToRemove) (lim : Z) (fuel : nat) (d : DB) :
  distinctBuckets ->
  Int.in_range lim ->
  batchDelete_loop fuel (LimitIterator ks lim) d [] <> Panic.
Proof.
  intros Hdistinct Hlim Hrun.
  pose proof (batchDelete_loop_reach Hdistinct ks lim Hlim fuel (LimitIterator ks lim)
                0%nat 0 d [] (or_intror (conj eq_refl (conj eq_refl eq_refl)))
                (start_reachable ks lim)) as Hreach.
  rewrite Hrun in Hreach. exact Hreach.
Qed.

Variable inv : DB -> Prop.
Hypothesis Hcommit : forall (d : DB) (b : MutBatch),
  inv d -> snd (Commit d b) = None /\ inv (fst (Commit d b)).

Lemma batchDelete_loop_no_error (fuel : nat) :
  forall (i : limitIterator) (d d' : DB) (rounds0 rounds : list roundLog)
         (err : option error),
    inv d -> batchDelete_loop fuel i d rounds0 = Ok (d', rounds, err) -> err = None.
Proof.
  induction fuel as [ | fuel IH]; intros i d d' rounds0 rounds err Hinv; [discriminate | ].
  cbn [batchDelete_loop].
  destruct (HasMore i) as [[ | ] | | ]; cbn [bind]; try discriminate.
  - destruct (deleteRound fuel (ResetLimit i) (NewBatch d) [] [])
      as [[[[i' batch] ds] ws] | | ]; cbn [bind]; try discriminate.
    destruct (Hcommit d batch Hinv) as [Hnone Hinv'].
    destruct (Commit d batch) as [d1 err1]. cbn [fst snd] in *. subst err1.
    apply IH. exact Hinv'.
  - intros [= _ _ <-]. reflexivity.
Qed.

(** X5.  Over a store whose commits succeed, the loop of [batchDelete]
    with limit [lim] returns exactly when the limit is positive, each of the
    four groups before the last holds fewer keys than the limit and the
    last group holds no more keys than the limit; otherwise it runs for
    ever. *)
Theorem batchDelete_loop_returns_iff (ks : keysToRemove) (lim : Z) (d : DB) :
  distinctBuckets ->
  Int.in_range lim ->
  inv d ->
  ((exists fuel d' rounds err,
       batchDelete_loop fuel (LimitIterator ks lim) d [] = Ok (d', rounds, err))
   <-> groupsFit ks lim) /\
  (~ groupsFit ks lim ->
   forall fuel, batchDelete_loop fuel (LimitIterator ks lim) d [] = OutOfFuel).
Proof.
  intros Hdistinct Hlim Hinv.
  assert (Hfit : forall fuel d' rounds err,
             batchDelete_loop fuel (LimitIterator ks lim) d [] = Ok (d', rounds, err) ->
             groupsFit ks lim).
  { intros fuel d' rounds err Hrun.
    pose proof (batchDelete_loop_no_error fuel _ d d' [] rounds err Hinv Hrun) as Herr.
    pose proof (batchDelete_loop_reach Hdistinct ks lim Hlim fuel (LimitIterator ks lim)
                  0%nat 0 d [] (or_intror (conj eq_refl (conj eq_refl eq_refl)))
                  (start_reachable ks lim)) as Hreach.
    rewrite Hrun in Hreach. destruct Hreach as (j' & c' & Hreach & _ & Hdone).
    destruct (Hdone Herr) as [-> ->].
    destruct Hreach as (_ & Hleft & Hmax & Hstart).
    assert (Hpos : 0 < lim) by (destruct Hstart as [Hpos | [Hj _]]; [exact Hpos | lia]).
    repeat split; [exact Hpos | exact Hleft | lia]. }
  split; [split | ].
  - intros (fuel & d' & rounds & err & Hrun). exact (Hfit fuel d' rounds err Hrun).
  - intros (Hpos & Hshort & Hlast).
    pose proof (batchDelete_loop_short Hdistinct ks lim Hlim Hshort Hlast
                  (S (S (List.length (remaining ks 0 0) + 2 * List.length (group ks 4))))
                  d ltac:(lia)) as Hrun.
    cbv zeta in Hrun. eexists _, _, _, _. rewrite Hrun.
    rewrite (surjective_pairing (match _ with Some _ => _ | None => _ end)).
    rewrite (surjective_pairing (fst _)). reflexivity.
  - intros Hnot fuel.
    destruct (batchDelete_loop fuel (LimitIterator ks lim) d []) as [[[d' rounds] err] | | ]
      eqn:Hrun.
    + exfalso. exact (Hnot (Hfit fuel d' rounds err Hrun)).
    + pose proof (batchDelete_loop_reach Hdistinct ks lim Hlim fuel (LimitIterator ks lim)
                    0%nat 0 d [] (or_intror (conj eq_refl (conj eq_refl eq_refl)))
                    (start_reachable ks lim)) as Hreach.
      rewrite Hrun in Hreach. contradiction.
    + reflexivity.
Qed.

End ReachTheorems.

Section CursorExamples.

Import Sample.

Lemma deleted_keys_in_traversal_order_witness :
  let rounds :=
    [{| deletes := [(AccountsHistoryBucket, [xb1], None);
                    (AccountsHistoryBucket, [xb2], None);
                    (AccountsHistoryBucket, [xb3], None);
                    (AccountsHistoryBucket, [xb4], None);
                    (AccountsHistoryBucket, [xb5], None)];
        warned := [];
        committed := Some errCommit |}] in
  (exists rest, takenKeys rounds ++ rest = keysInOrder fiveKeys) /\
  (Some errCommit = None -> takenKeys rounds = keysInOrder fiveKeys).
Proof.
  cbv zeta.
  apply (deleted_keys_in_traversal_order fiveKeys DeleteLimit 7 readOnlyDb readOnlyDb).
  - exact sample_distinct.
  - unfold Int.in_range, Int.min_int, Int.max_int, DeleteLimit. lia.
  - vm_compute. reflexivity.
Defined.

Lemma batchDelete_loop_never_panics_witness :
  batchDelete_loop 3 (LimitIterator fiveKeys 2) flakyDb [] <> Panic.
Proof.
  apply (batchDelete_loop_never_panics fiveKeys 2 3 flakyDb).
  - exact sample_distinct.
  - unfold Int.in_range, Int.min_int, Int.max_int. lia.
Defined.

Lemma batchDelete_loop_returns_iff_witness :
  ((exists fuel d' rounds err,
       batchDelete_loop fuel (LimitIterator fiveKeys 5) flakyDb [] = Ok (d', rounds, err))
   <-> groupsFit fiveKeys 5) /\
  (~ groupsFit fiveKeys 5 ->
   forall fuel, batchDelete_loop fuel (LimitIterator fiveKeys 5) flakyDb [] = OutOfFuel).
Proof.
  apply (batchDelete_loop_returns_iff (fun d => mem_failCommit d = None)).
  - intros d b Hok. cbn [Commit database]. unfold mem_commit. rewrite Hok.
    split; reflexivity.
  - exact sample_distinct.
  - unfold Int.in_range, Int.min_int, Int.max_int. lia.
  - reflexivity.
Defined.

End CursorExamples.

(** ** Reading and writing the checkpoint *)

Lemma valueOf_high (b : byte) (m : Z) : 8 <= m -> Z.testbit (LittleEndian.valueOf b) m = false.
Proof.
  intros Hm. rewrite <- (Z.mod_small (LittleEndian.valueOf b) (2 ^ 8))
    by apply valueOf_range.
  apply Z.mod_pow2_bits_high. lia.
Qed.

(** What [Uint64] decodes is a [uint64]. *)
Lemma Uint64_range (data : bytes) (v : Z) :
  LittleEndian.Uint64 data = Ok v -> U64.in_range v.
Proof.
  do 8 (destruct data as [ | ? data]; [discriminate | ]).
  rewrite Uint64_eight. intros Hdec.
  match type of Hdec with Ok ?x = Ok _ => set (chain := x) in * end.
  assert (v = chain) as -> by congruence. clear Hdec.
  unfold U64.in_range, U64.modulus.
  assert (Hnn : 0 <= chain).
  { assert (Hs : forall b k, 0 <= Z.shiftl (LittleEndian.valueOf b) k)
      by (intros; apply Z.shiftl_nonneg; apply valueOf_range).
    assert (Hl : forall a b, 0 <= a -> 0 <= b -> 0 <= Z.lor a b)
      by (intros; apply Z.lor_nonneg; split; assumption).
    subst chain.
    repeat (apply Hl; [first [apply Hs | apply valueOf_range] | ]). apply Hs. }
  split; [exact Hnn | ].
  rewrite <- (Z.mod_small chain (2 ^ 64)); [apply Z.mod_pos_bound; lia | ].
  split; [exact Hnn | ].
  destruct (Z_lt_le_dec chain (2 ^ 64)) as [Hlt | Hge]; [exact Hlt | exfalso].
  assert (Hbits : forall n, 64 <= n -> Z.testbit chain n = false).
  { intros n Hn. subst chain.
    rewrite !Z.lor_spec, !Z.shiftl_spec by lia.
    rewrite !valueOf_high by lia. reflexivity. }
  assert (Hlog : 64 <= Z.log2 chain) by (apply Z.log2_le_pow2; lia).
  pose proof (Z.bit_log2 chain ltac:(lia)) as Htop.
  rewrite Hbits in Htop by lia. discriminate.
Qed.

Section Checkpoint.

Context {DB Chain : Type} `{HK : KeyValue DB} `{HI : DbutilsInfo}.

(** X1.  Over a store that answers a get with what was put, the checkpoint
    [WriteLastPrunedBlockNum] has stored without error is the number
    [ReadLastPrunedBlockNum] reads back, for every [uint64]; the write
    leaves the checkpoint in memory as it is. *)
Theorem read_after_write (p : BasicPruner DB Chain) (num : Z) :
  getAfterPut (DB := DB) ->
  U64.in_range num ->
  snd (WriteLastPrunedBlockNum p num) = None ->
  ReadLastPrunedBlockNum (fst (WriteLastPrunedBlockNum p num)) = Ok num /\
  LastPrunedBlockNum (fst (WriteLastPrunedBlockNum p num)) = LastPrunedBlockNum p.
Proof.
  intros Hlaw Hnum. unfold WriteLastPrunedBlockNum, ReadLastPrunedBlockNum.
  destruct (Put (db p) DatabaseInfoBucket LastPrunedBlockKey (LittleEndian.PutUint64 num))
    as [d' err] eqn:Hput.
  cbn [fst snd]. intros ->. split; [ | reflexivity].
  pose proof (Hlaw _ _ _ _ _ Hput) as Hget. cbn [db setPruned].
  destruct (Get d' DatabaseInfoBucket LastPrunedBlockKey) as [data e]. cbn [fst] in Hget.
  subst data. change (len (LittleEndian.PutUint64 num) =? 0) with false. cbv iota.
  apply Uint64_PutUint64. exact Hnum.
Qed.

(** X2.  [ReadLastPrunedBlockNum] looks only at the data of the get, not
    at its error: it answers 0 when there is no data, panics when there
    are one to seven bytes, and otherwise answers the [uint64] of the
    first eight bytes, little end first, whatever follows them. *)
Theorem read_checkpoint_cases (p : BasicPruner DB Chain) :
  let data := fst (Get (db p) DatabaseInfoBucket LastPrunedBlockKey) in
  (data = [] -> ReadLastPrunedBlockNum p = Ok 0) /\
  ((0 < List.length data < 8)%nat -> ReadLastPrunedBlockNum p = Panic) /\
  ((8 <= List.length data)%nat ->
   exists v, ReadLastPrunedBlockNum p = Ok v /\ U64.in_range v /\
             LittleEndian.Uint64 (firstn 8 data) = Ok v).
Proof.
  unfold ReadLastPrunedBlockNum.
  destruct (Get (db p) DatabaseInfoBucket LastPrunedBlockKey) as [data e].
  cbn [fst]. split; [ | split].
  - intros ->. reflexivity.
  - intros Hlen. destruct data as [ | b0 data]; [cbn in Hlen; lia | ].
    change (len (b0 :: data) =? 0) with (Z.of_nat (S (List.length data)) =? 0).
    destruct (Z.eqb_spec (Z.of_nat (S (List.length data))) 0); [lia | ].
    do 7 (destruct data as [ | ? data]; [reflexivity | ]).
    cbn [List.length] in Hlen. lia.
  - intros Hlen.
    do 8 (destruct data as [ | ? data]; [cbn [List.length] in Hlen; lia | ]).
    match goal with
    | |- context [len ?l =? 0] =>
        destruct (Z.eqb_spec (len l) 0) as [Hz | _]; [unfold len in Hz; cbn in Hz; lia | ]
    end.
    cbn [firstn]. rewrite !Uint64_eight. eexists. split; [reflexivity | split; [ | reflexivity]].
    eapply Uint64_range. apply Uint64_eight with (rest := []).
Qed.

End Checkpoint.

Section CheckpointExamples.

Import SampleStore.

Lemma memKV_getAfterPut : getAfterPut (DB := MemKV).
Proof.
  intros d d' bucketName key value [= <-]. cbn [Get keyValue]. unfold kv_get.
  cbn [find fst snd]. rewrite String.eqb_refl. unfold Sample.bytes_eqb.
  destruct (list_eq_dec Byte.byte_eq_dec key key) as [_ | Hne]; [reflexivity | ].
  exfalso. apply Hne. reflexivity.
Qed.

Lemma fullDb_getAfterPut : getAfterPut (DB := FullDb).
Proof.
  intros d d' bucketName key value [= <-]. cbn [Get fullKeyValue]. unfold kv_get.
  cbn [find fst snd]. rewrite String.eqb_refl. unfold Sample.bytes_eqb.
  destruct (list_eq_dec Byte.byte_eq_dec key key) as [_ | Hne]; [reflexivity | ].
  exfalso. apply Hne. reflexivity.
Qed.

Lemma read_after_write_witness :
  ReadLastPrunedBlockNum (fst (WriteLastPrunedBlockNum (prunerAt [] 7) 10100)) = Ok 10100 /\
  LastPrunedBlockNum (fst (WriteLastPrunedBlockNum (prunerAt [] 7) 10100)) = 7.
Proof.
  apply (read_after_write (prunerAt [] 7) 10100).
  - exact memKV_getAfterPut.
  - unfold U64.in_range, U64.modulus. lia.
  - reflexivity.
Defined.

Lemma read_checkpoint_cases_witness :
  ReadLastPrunedBlockNum (prunerAt [] 7) = Ok 0 /\
  ReadLastPrunedBlockNum
    (prunerAt [(DatabaseInfoBucket, LastPrunedBlockKey, [x74; x27])] 7) = Panic /\
  (exists v,
      ReadLastPrunedBlockNum
        (prunerAt [(DatabaseInfoBucket, LastPrunedBlockKey,
                    [x74; x27; x00; x00; x00; x00; x00; x00; xff])] 7) = Ok v /\
      U64.in_range v /\
      LittleEndian.Uint64 [x74; x27; x00; x00; x00; x00; x00; x00] = Ok v).
Proof.
  split; [ | split].
  - apply (read_checkpoint_cases (prunerAt [] 7)). reflexivity.
  - apply (read_checkpoint_cases
             (prunerAt [(DatabaseInfoBucket, LastPrunedBlockKey, [x74; x27])] 7)).
    cbn. lia.
  - destruct (read_checkpoint_cases
                (prunerAt [(DatabaseInfoBucket, LastPrunedBlockKey,
                            [x74; x27; x00; x00; x00; x00; x00; x00; xff])] 7))
      as (_ & _ & Hlong).
    exact (Hlong ltac:(cbn; lia)).
Defined.

End CheckpointExamples.

(** ** The range and the retention depth *)

(** X6.  An eligible range ends at least [blocksBeforePruning] blocks
    below the current block, so a block within the retention depth is
    never in it; it is not empty when [blocksBatch] is positive, and it is
    the empty range [(lastPruned, lastPruned)], still answered eligible,
    when [blocksBatch] is 0. *)
Theorem eligible_range_keeps_retention (cb lp bbp bb from to : Z) :
  U64.in_range cb -> U64.in_range lp -> U64.in_range bbp -> U64.in_range bb ->
  calculateNumOfPrunedBlocks cb lp bbp bb = (from, to, true) ->
  to + bbp <= cb /\ (0 < bb -> from < to) /\ (bb = 0 -> to = from).
Proof.
  intros Hcb Hlp Hbbp Hbb. rewrite calculate_spec by assumption.
  destruct (Z.leb_spec cb lp); [discriminate | ].
  destruct (Z.leb_spec (cb - lp) bbp); [discriminate | ].
  cbn [orb]. intros [= <- <-]. unfold U64.in_range in *. lia.
Qed.

Lemma eligible_range_keeps_retention_witness :
  10100 + 90000 <= 100100 /\ (0 < 70000 -> 0 < 10100) /\ (70000 = 0 -> 10100 = 0).
Proof.
  assert (R : forall z, 0 <= z < 1000000 -> U64.in_range z)
    by (unfold U64.in_range, U64.modulus; lia).
  apply (eligible_range_keeps_retention 100100 0 90000 70000 0 10100);
    try (apply R; lia). reflexivity.
Defined.

(** X7.  After an eligible range [(lastPruned, to)], the computation at the
    same current block from the checkpoint [to] is eligible exactly when
    the first range was cut by [blocksBatch]; so the ticks at one head
    prune in batches until the retention depth is reached and then find
    nothing to prune. *)
Theorem next_range_after_batch (cb lp bbp bb from to : Z) :
  U64.in_range cb -> U64.in_range lp -> U64.in_range bbp -> U64.in_range bb ->
  calculateNumOfPrunedBlocks cb lp bbp bb = (from, to, true) ->
  (snd (calculateNumOfPrunedBlocks cb to bbp bb) = true <-> bb < cb - lp - bbp) /\
  (bb < cb - lp - bbp ->
   calculateNumOfPrunedBlocks cb to bbp bb
     = (to, to + Z.min (cb - lp - bbp - bb) bb, true)).
Proof.
  intros Hcb Hlp Hbbp Hbb. rewrite calculate_spec by assumption.
  destruct (Z.leb_spec cb lp); [discriminate | ].
  destruct (Z.leb_spec (cb - lp) bbp); [discriminate | ].
  cbn [orb]. intros [= <- <-].
  assert (Hto : U64.in_range (lp + Z.min (cb - lp - bbp) bb))
    by (unfold U64.in_range in *; lia).
  rewrite calculate_spec by assumption.
  destruct (Z_lt_le_dec bb (cb - lp - bbp)) as [Hcut | Hall].
  - rewrite Z.min_r by lia.
    destruct (Z.leb_spec cb (lp + bb)); [unfold U64.in_range in *; lia | ].
    destruct (Z.leb_spec (cb - (lp + bb)) bbp); [lia | ].
    cbn [orb snd]. split; [split; [intros _; exact Hcut | reflexivity] | ].
    intros _. f_equal. f_equal. f_equal. lia.
  - rewrite Z.min_l by lia.
    destruct (Z.leb_spec (cb - (lp + (cb - lp - bbp))) bbp); [ | lia].
    rewrite orb_true_r. cbn [snd]. split; [split | ]; intros; try discriminate; lia.
Qed.

Lemma next_range_after_batch_witness :
  (snd (calculateNumOfPrunedBlocks 300000 70000 90000 70000) = true
   <-> 70000 < 300000 - 0 - 90000) /\
  (70000 < 300000 - 0 - 90000 ->
   calculateNumOfPrunedBlocks 300000 70000 90000 70000
     = (70000, 70000 + Z.min (300000 - 0 - 90000 - 70000) 70000, true)).
Proof.
  assert (R : forall z, 0 <= z < 1000000 -> U64.in_range z)
    by (unfold U64.in_range, U64.modulus; lia).
  apply (next_range_after_batch 300000 0 90000 70000 0 70000);
    try (apply R; lia). reflexivity.
Defined.

(** ** What a prune tick deletes *)

Section TickDeletes.

Context {DB : Type} `{HD : Database DB} `{HU : Dbutils} `{HC : Changeset}.

Lemma visited_in {S : Type} (visit : walker S) (items : list cursorItem) :
  forall (s : S) (kv : bytes * bytes),
    In kv (visited visit items s) -> In (Entry (fst kv) (snd kv)) items.
Proof.
  induction items as [ | [key v | e] rest IH]; intros s kv; try contradiction.
  rewrite visited_entry. intros [<- | Hin]; [left; reflexivity | right].
  destruct (snd (visit s key v)); [contradiction | ].
  destruct (snd (fst (visit s key v))); [ | contradiction].
  exact (IH _ kv Hin).
Qed.

Lemma filter_upToFirstAfter_none (bucketName : string) (blockNumFrom blockNumTo : Z)
    (es : list (bytes * bytes)) :
  Forall (fun kv => inWindow bucketName blockNumFrom blockNumTo kv = false) es ->
  filter (inWindow bucketName blockNumFrom blockNumTo)
         (upToFirstAfter bucketName blockNumTo es) = [].
Proof.
  induction 1 as [ | e es He _ IH]; [reflexivity | ].
  cbn [upToFirstAfter]. destruct (blockNumTo <? timestampOf bucketName e);
    cbn [filter]; rewrite He; [reflexivity | exact IH].
Qed.

(** The keys of the two walks: the account keys come from the first walk,
    the storage walk adds nothing to them. *)
Lemma collectKeys_account (d : DB) (blockNumFrom blockNumTo : Z) :
  let accountEntries :=
    filter (inWindow PlainAccountChangeSetBucket blockNumFrom blockNumTo)
           (visited (accountWalker blockNumFrom blockNumTo)
                    (bucketCursor d PlainAccountChangeSetBucket) newKeysToRemove) in
  let ks := fst (collectKeys d blockNumFrom blockNumTo) in
  AccountHistoryKeys ks = map historyKeyOf accountEntries /\
  StorageHistoryKeys ks = [] /\
  StorageKeys ks = [] /\
  AccountChangeSet ks = map fst accountEntries.
Proof.
  intros accountEntries ks.
  pose proof (account_walk_keys d blockNumFrom blockNumTo) as Hacc. cbv zeta in Hacc.
  fold accountEntries in Hacc. subst ks. unfold collectKeys.
  destruct (Walk d PlainAccountChangeSetBucket (accountWalker blockNumFrom blockNumTo)
                 newKeysToRemove) as [keys1 [e | ]]; cbn [fst] in *.
  - subst keys1. repeat split.
  - unfold Walk.
    rewrite (walk_collects blockNumFrom blockNumTo PlainStorageChangeSetBucket
               (storageWalker blockNumFrom blockNumTo) collectStorage)
      by (intros ks' key v; apply storageWalker_cases).
    rewrite fold_collectStorage. subst keys1. repeat split.
Qed.

(** X8.  Every delete a prune tick issues is for an entry of the account
    change-set bucket whose timestamp is at or above the checkpoint and at
    least [BlocksBeforePruning] below the current block: the delete of the
    entry's raw key in that bucket, or of its history key in the account
    history bucket.  So nothing of the retention depth is deleted, and
    nothing under another bucket. *)
Theorem tick_deletes_only_old_account_changes {Chain : Type} (fuel : nat)
    (p p' : BasicPruner DB Chain) (number : Z) (rounds : list roundLog)
    (err : option error) (alive : bool) :
  distinctBuckets ->
  U64.in_range (LastPrunedBlockNum p) ->
  U64.in_range (BlocksBeforePruning (config p)) ->
  U64.in_range (BlocksToPrune (config p)) ->
  pruneTick fuel p (Some {| Number := Some number |}) = Ok (p', rounds, err, alive) ->
  forall (b : string) (key : bytes),
    In (b, key) (takenKeys rounds) ->
    exists kv,
      In (Entry (fst kv) (snd kv)) (bucketCursor (db p) PlainAccountChangeSetBucket) /\
      LastPrunedBlockNum p <= timestampOf PlainAccountChangeSetBucket kv /\
      timestampOf PlainAccountChangeSetBucket kv + BlocksBeforePruning (config p)
        <= Uint64 number /\
      ((b = PlainAccountChangeSetBucket /\ key = fst kv) \/
       (b = AccountsHistoryBucket /\ key = historyKeyOf kv)).
Proof.
  intros Hdistinct Hlp Hbbp Hbb. unfold pruneTick. cbn [Number].
  assert (Hcb : U64.in_range (Uint64 number)).
  { unfold Uint64, U64.wrap, U64.in_range, U64.modulus. apply Z.mod_pos_bound. lia. }
  rewrite calculate_spec by assumption.
  destruct (Z.leb_spec (Uint64 number) (LastPrunedBlockNum p));
    [intros [= _ <- _ _] b key []| ].
  destruct (Z.leb_spec (Uint64 number - LastPrunedBlockNum p)
                       (BlocksBeforePruning (config p)));
    [intros [= _ <- _ _] b key [] | ].
  cbn [orb negb].
  set (to := LastPrunedBlockNum p
             + Z.min (Uint64 number - LastPrunedBlockNum p - BlocksBeforePruning (config p))
                     (BlocksToPrune (config p))).
  unfold Prune.
  pose proof (collectKeys_account (db p) (LastPrunedBlockNum p) to) as Hkeys.
  cbv zeta in Hkeys.
  destruct (collectKeys (db p) (LastPrunedBlockNum p) to) as [ks [e | ]]; cbn [fst bind] in *.
  { intros [= _ <- _ _] b key []. }
  destruct Hkeys as (Hhist & Hsh & Hsk & Hacs).
  destruct (batchDelete fuel (db p) ks) as [[[d' rs] err'] | | ] eqn:Hrun; cbn [bind];
    try discriminate.
  intros Htick b key Hin.
  assert (rounds = rs) as -> by (destruct err'; congruence).
  unfold batchDelete in Hrun.
  assert (Hpre : exists rest, takenKeys rs ++ rest = keysInOrder ks).
  { pose proof (batchDelete_loop_reach Hdistinct ks DeleteLimit
                  ltac:(unfold Int.in_range, Int.min_int, Int.max_int, DeleteLimit; lia)
                  fuel (LimitIterator ks DeleteLimit) 0%nat 0 (db p) []
                  (or_intror (conj eq_refl (conj eq_refl eq_refl)))
                  (start_reachable ks DeleteLimit)) as Hreach.
    rewrite Hrun in Hreach. destruct Hreach as (j' & c' & _ & Heq & _).
    cbn [takenKeys flat_map app] in Heq. rewrite keysInOrder_remaining in Heq.
    exists (remaining ks j' c'). exact Heq. }
  destruct Hpre as (rest & Hpre).
  assert (Hall : In (b, key) (keysInOrder ks))
    by (rewrite <- Hpre; apply in_or_app; left; exact Hin).
  unfold keysInOrder in Hall. rewrite Hsh, Hsk, Hhist, Hacs in Hall.
  cbn [map app] in Hall.
  assert (Hentry : exists kv,
             In kv (filter (inWindow PlainAccountChangeSetBucket (LastPrunedBlockNum p) to)
                      (visited (accountWalker (LastPrunedBlockNum p) to)
                         (bucketCursor (db p) PlainAccountChangeSetBucket) newKeysToRemove))
             /\ ((b = PlainAccountChangeSetBucket /\ key = fst kv) \/
                 (b = AccountsHistoryBucket /\ key = historyKeyOf kv))).
  { apply in_app_or in Hall. destruct Hall as [Hh | Ha].
    - apply in_map_iff in Hh. destruct Hh as (k0 & [= <- <-] & Hk0).
      apply in_map_iff in Hk0. destruct Hk0 as (kv & <- & Hkv).
      exists kv. split; [exact Hkv | right; split; reflexivity].
    - apply in_map_iff in Ha. destruct Ha as (k0 & [= <- <-] & Hk0).
      apply in_map_iff in Hk0. destruct Hk0 as (kv & <- & Hkv).
      exists kv. split; [exact Hkv | left; split; reflexivity]. }
  destruct Hentry as (kv & Hkv & Hwhich).
  apply filter_In in Hkv. destruct Hkv as [Hvis Hwin].
  exists kv. split; [exact (visited_in _ _ _ kv Hvis) | ].
  unfold inWindow in Hwin. apply andb_true_iff in Hwin. destruct Hwin as [Hge Hle].
  apply Z.leb_le in Hge, Hle. subst to.
  repeat split; [exact Hge | lia | exact Hwhich].
Qed.

End TickDeletes.

Section EmptyPrune.

Context {DB : Type} `{HD : Database DB} `{HU : Dbutils} `{HC : Changeset}.

(** X9.  When neither change-set bucket has an entry in the range,
    [Prune] issues no delete, but it still opens one batch and commits it
    empty, and what it returns is the answer of that commit: a failed
    commit fails the cycle even though there was nothing to delete. *)
Theorem prune_with_nothing_in_range (fuel : nat) (d : DB) (blockNumFrom blockNumTo : Z)
    (accounts storage : list (bytes * bytes)) :
  distinctBuckets ->
  blockNumFrom <= blockNumTo ->
  bucketCursor d PlainAccountChangeSetBucket = entryItems accounts ->
  bucketCursor d PlainStorageChangeSetBucket = entryItems storage ->
  Forall (fun kv => inWindow PlainAccountChangeSetBucket blockNumFrom blockNumTo kv = false)
         accounts ->
  Forall (fun kv => inWindow PlainStorageChangeSetBucket blockNumFrom blockNumTo kv = false)
         storage ->
  Prune (S (S fuel)) d blockNumFrom blockNumTo =
    Ok (fst (Commit d (NewBatch d)),
        [{| deletes := []; warned := []; committed := snd (Commit d (NewBatch d)) |}],
        snd (Commit d (NewBatch d))).
Proof.
  intros Hdistinct Hrange Hacc Hsto Hnoacc Hnosto.
  assert (Hcollect : collectKeys d blockNumFrom blockNumTo = (newKeysToRemove, None)).
  { unfold collectKeys, Walk. rewrite Hacc, Hsto.
    destruct (scansWindow_intro PlainAccountChangeSetBucket blockNumFrom blockNumTo
                (accountWalker blockNumFrom blockNumTo) collectAccount Hrange
                (fun ks key v => accountWalker_cases blockNumFrom blockNumTo ks key v))
      as (_ & Hwalk1 & _).
    destruct (Hwalk1 accounts newKeysToRemove) as (_ & -> & _).
    rewrite filter_upToFirstAfter_none by assumption. cbn [fold_left].
    destruct (scansWindow_intro PlainStorageChangeSetBucket blockNumFrom blockNumTo
                (storageWalker blockNumFrom blockNumTo) collectStorage Hrange
                (fun ks key v => storageWalker_cases blockNumFrom blockNumTo ks key v))
      as (_ & Hwalk2 & _).
    destruct (Hwalk2 storage newKeysToRemove) as (_ & -> & _).
    rewrite filter_upToFirstAfter_none by assumption. reflexivity. }
  unfold Prune. rewrite Hcollect. unfold batchDelete.
  rewrite (batchDelete_loop_short Hdistinct newKeysToRemove DeleteLimit).
  - cbn [remaining issueDeletes fst snd failedDeletes flat_map group newKeysToRemove
         StorageChangeSet List.length Nat.sub emptyRounds].
    change (remaining newKeysToRemove 0 0) with (@nil (string * bytes)).
    cbn [issueDeletes fst snd failedDeletes flat_map].
    destruct (Commit d (NewBatch d)) as [d' [e | ]]; reflexivity.
  - unfold Int.in_range, Int.min_int, Int.max_int, DeleteLimit. lia.
  - intros i Hi. unfold DeleteLimit.
    destruct i as [ | [ | [ | [ | i]]]]; cbn; lia.
  - unfold DeleteLimit. cbn. lia.
  - change (remaining newKeysToRemove 0 0) with (@nil (string * bytes)). cbn. lia.
Qed.

End EmptyPrune.

(** ** The loop of the worker *)

Section Loop.

Context {DB Chain : Type} `{HD : Database DB} `{HK : KeyValue DB} `{HU : Dbutils}
        `{HI : DbutilsInfo} `{HC : Changeset}.

Ltac range_step :=
  first [reflexivity | assumption | lia | (unfold U64.in_range in *; lia)
        | (intros Hd; discriminate Hd)].

(** A prune tick leaves the wait group and the configuration alone, and
    the checkpoint a [uint64] that is no smaller. *)
Lemma pruneTick_keeps (fuel : nat) (p p' : BasicPruner DB Chain) (cb : option Block)
    (rounds : list roundLog) (err : option error) (alive : bool) :
  U64.in_range (LastPrunedBlockNum p) ->
  U64.in_range (BlocksBeforePruning (config p)) ->
  U64.in_range (BlocksToPrune (config p)) ->
  pruneTick fuel p cb = Ok (p', rounds, err, alive) ->
  config p' = config p /\ wg p' = wg p /\
  U64.in_range (LastPrunedBlockNum p') /\
  LastPrunedBlockNum p <= LastPrunedBlockNum p' /\
  (alive = false -> err <> None).
Proof.
  intros Hlp Hbbp Hbb. unfold pruneTick.
  destruct cb as [[[number | ]] | ];
    try (intros [= <- _ _ <-]; repeat split;
      range_step).
  cbn [Number].
  assert (Hcb : U64.in_range (Uint64 number)).
  { unfold Uint64, U64.wrap, U64.in_range, U64.modulus. apply Z.mod_pos_bound. lia. }
  rewrite calculate_spec by assumption.
  destruct (Z.leb_spec (Uint64 number) (LastPrunedBlockNum p));
    [intros [= <- _ _ <-]; repeat split;
      range_step | ].
  destruct (Z.leb_spec (Uint64 number - LastPrunedBlockNum p)
                       (BlocksBeforePruning (config p)));
    [intros [= <- _ _ <-]; repeat split;
      range_step | ].
  cbn [orb negb].
  destruct (Prune fuel (db p) _ _) as [[[d' rs] [e | ]] | | ]; cbn [bind];
    try discriminate; intros [= <- _ <- <-]; cbn [setPruned config wg LastPrunedBlockNum];
    repeat split; try assumption; try discriminate; unfold U64.in_range in *; lia.
Qed.

Lemma pruningLoop_invariant (fuel : nat) (cases : list selectCase) :
  forall (p p' : BasicPruner DB Chain) (logs logs' : list turnLog) (returned : bool),
    U64.in_range (LastPrunedBlockNum p) ->
    U64.in_range (BlocksBeforePruning (config p)) ->
    U64.in_range (BlocksToPrune (config p)) ->
    pruningLoop fuel p cases logs = Ok (p', logs', returned) ->
    LastPrunedBlockNum p <= LastPrunedBlockNum p' /\
    U64.in_range (LastPrunedBlockNum p') /\
    config p' = config p /\
    wg p' = (if returned then wg p - 1 else wg p) /\
    (returned = true ->
     exists pre,
       (exists crit, logs' = pre ++ [Stopped (LastPrunedBlockNum p') crit]) \/
       (exists rounds e, logs' = pre ++ [Pruned rounds (Some e)])).
Proof.
  induction cases as [ | [ | | cb] rest IH]; intros p p' logs logs' returned Hlp Hbbp Hbb;
    cbn [pruningLoop].
  - intros [= <- _ <-]. repeat split; range_step.
  - unfold WriteLastPrunedBlockNum.
    destruct (Put (db p) DatabaseInfoBucket LastPrunedBlockKey _) as [d' crit].
    intros [= <- <- <-]. cbn [workerDone setPruned LastPrunedBlockNum config wg].
    split; [lia | split; [assumption | split; [reflexivity | split; [reflexivity | ]]]].
    intros _. exists logs. left. exists crit. reflexivity.
  - unfold WriteLastPrunedBlockNum.
    destruct (Put (db p) DatabaseInfoBucket LastPrunedBlockKey _) as [d' crit].
    intros Hrun. apply IH in Hrun; assumption.
  - destruct (pruneTick fuel p cb) as [[[[p1 rounds] err] alive] | | ] eqn:Htick;
      cbn [bind]; try discriminate.
    destruct (pruneTick_keeps fuel p p1 cb rounds err alive Hlp Hbbp Hbb Htick)
      as (Hcfg & Hwg & Hlp1 & Hle & Hdead).
    destruct alive.
    + intros Hrun. apply IH in Hrun; try (rewrite Hcfg; assumption); try assumption.
      destruct Hrun as (Hle' & Hin' & Hcfg' & Hwg' & Hlast).
      split; [lia | split; [assumption | split; [congruence | split; [ | assumption]]]].
      rewrite Hwg', Hwg. reflexivity.
    + intros [= <- <- <-]. cbn [workerDone LastPrunedBlockNum config wg].
      split; [lia | split; [assumption | split; [assumption | split; [lia | ]]]].
      intros _. exists logs. right.
      destruct err as [e | ]; [ | exfalso; apply (Hdead eq_refl); reflexivity].
      exists rounds, e. reflexivity.
Qed.

(** X10.  Whatever cases the [select] of [pruningLoop] takes, the
    checkpoint in memory never decreases; the worker returns, and calls
    [wg.Done], once, only on the stop signal, after it has written the
    checkpoint it holds, or on a tick whose [Prune] returned an error. *)
Theorem pruningLoop_checkpoint_monotone (fuel : nat) (cases : list selectCase)
    (p p' : BasicPruner DB Chain) (logs : list turnLog) (returned : bool) :
  U64.in_range (LastPrunedBlockNum p) ->
  U64.in_range (BlocksBeforePruning (config p)) ->
  U64.in_range (BlocksToPrune (config p)) ->
  pruningLoop fuel p cases [] = Ok (p', logs, returned) ->
  LastPrunedBlockNum p <= LastPrunedBlockNum p' /\
  wg p' = (if returned then wg p - 1 else wg p) /\
  (returned = true ->
   exists pre,
     (exists crit, logs = pre ++ [Stopped (LastPrunedBlockNum p') crit]) \/
     (exists rounds e, logs = pre ++ [Pruned rounds (Some e)])).
Proof.
  intros Hlp Hbbp Hbb Hrun.
  destruct (pruningLoop_invariant fuel cases p p' [] logs returned Hlp Hbbp Hbb Hrun)
    as (Hle & _ & _ & Hwg & Hlast).
  repeat split; assumption.
Qed.

(** X11.  When the loop has ended on the stop signal and the put of the
    checkpoint did not fail, then, over a store that answers a get with
    what was put, [Start] loads the very checkpoint the worker held in
    memory, whatever turns the loop took before. *)
Theorem start_after_stop (fuel : nat) (cases : list selectCase)
    (p p' : BasicPruner DB Chain) (logs pre : list turnLog) (num : Z) :
  getAfterPut (DB := DB) ->
  U64.in_range (LastPrunedBlockNum p) ->
  U64.in_range (BlocksBeforePruning (config p)) ->
  U64.in_range (BlocksToPrune (config p)) ->
  pruningLoop fuel p cases [] = Ok (p', logs, true) ->
  logs = pre ++ [Stopped num None] ->
  num = LastPrunedBlockNum p' /\
  Start p' = Ok {| wg := wg p' + 1;
                   stop := stop p';
                   db := db p';
                   chain := chain p';
                   LastPrunedBlockNum := LastPrunedBlockNum p';
                   config := config p' |}.
Proof.
  intros Hlaw Hlp Hbbp Hbb Hrun Hlogs.
  enough (Hfrom : forall logs0 : list turnLog,
             pruningLoop fuel p cases logs0 = Ok (p', logs, true) ->
             logs = pre ++ [Stopped num None] ->
             num = LastPrunedBlockNum p' /\
             Start p' = Ok {| wg := wg p' + 1;
                              stop := stop p';
                              db := db p';
                              chain := chain p';
                              LastPrunedBlockNum := LastPrunedBlockNum p';
                              config := config p' |})
    by exact (Hfrom [] Hrun Hlogs).
  clear Hrun Hlogs. revert p Hlp Hbbp Hbb.
  induction cases as [ | [ | | cb] rest IH]; intros p Hlp Hbbp Hbb logs0;
    cbn [pruningLoop].
  - discriminate.
  - unfold WriteLastPrunedBlockNum.
    destruct (Put (db p) DatabaseInfoBucket LastPrunedBlockKey _) as [d' crit] eqn:Hput.
    intros [= <- <-] Hlogs. apply app_inj_tail in Hlogs.
    destruct Hlogs as [_ [= <- ->]]. split; [reflexivity | ].
    unfold Start, ReadLastPrunedBlockNum.
    cbn [workerDone setPruned db wg stop chain LastPrunedBlockNum config].
    pose proof (Hlaw _ _ _ _ _ Hput) as Hget.
    destruct (Get d' DatabaseInfoBucket LastPrunedBlockKey) as [data e].
    cbn [fst] in Hget. subst data.
    change (len (LittleEndian.PutUint64 (LastPrunedBlockNum p)) =? 0) with false.
    cbv iota. rewrite Uint64_PutUint64 by assumption. reflexivity.
  - unfold WriteLastPrunedBlockNum.
    destruct (Put (db p) DatabaseInfoBucket LastPrunedBlockKey _) as [d' crit].
    apply IH; assumption.
  - destruct (pruneTick fuel p cb) as [[[[p1 rounds] err] alive] | | ] eqn:Htick;
      cbn [bind]; try discriminate.
    destruct (pruneTick_keeps fuel p p1 cb rounds err alive Hlp Hbbp Hbb Htick)
      as (Hcfg & _ & Hlp1 & _ & _).
    destruct alive.
    + apply IH; try (rewrite Hcfg; assumption); assumption.
    + intros [= <- <-] Hlogs. apply app_inj_tail in Hlogs.
      destruct Hlogs as [_ Hlast]. discriminate.
Qed.

End Loop.

Section WorkerExamples.

Import Sample.
Import SampleStore.

Lemma sample_u64 (z : Z) : 0 <= z < 1000000 -> U64.in_range z.
Proof. unfold U64.in_range, U64.modulus. lia. Qed.

Lemma tick_deletes_only_old_account_changes_witness :
  exists kv,
    In (Entry (fst kv) (snd kv)) (bucketCursor (db chainPruner) PlainAccountChangeSetBucket) /\
    LastPrunedBlockNum chainPruner <= timestampOf PlainAccountChangeSetBucket kv /\
    timestampOf PlainAccountChangeSetBucket kv + BlocksBeforePruning (config chainPruner)
      <= Uint64 100100 /\
    ((PlainAccountChangeSetBucket = PlainAccountChangeSetBucket /\ key10100 = fst kv) \/
     (PlainAccountChangeSetBucket = AccountsHistoryBucket /\ key10100 = historyKeyOf kv)).
Proof.
  eapply (tick_deletes_only_old_account_changes 10 chainPruner _ 100100).
  - exact sample_distinct.
  - apply sample_u64. cbn. lia.
  - apply sample_u64. cbn. lia.
  - apply sample_u64. cbn. lia.
  - lazy. reflexivity.
  - cbn. auto.
Defined.

Lemma prune_with_nothing_in_range_witness :
  Prune 2 chainDb 0 100 =
    Ok (fst (Commit chainDb (NewBatch chainDb)),
        [{| deletes := []; warned := [];
            committed := snd (Commit chainDb (NewBatch chainDb)) |}],
        snd (Commit chainDb (NewBatch chainDb))).
Proof.
  apply (prune_with_nothing_in_range 0 chainDb 0 100
           [(key5000, []); (key10100, []); (key10101, []); (key50000, [])] []).
  - exact sample_distinct.
  - lia.
  - reflexivity.
  - reflexivity.
  - repeat constructor.
  - constructor.
Defined.

Lemma pruningLoop_checkpoint_monotone_witness :
  exists p' logs,
    pruningLoop 10 chainPruner
      [PruneTimer (Some {| Number := Some 100100 |}); SaveTimer; StopSignal] []
      = Ok (p', logs, true) /\
    LastPrunedBlockNum p' = 10100 /\
    LastPrunedBlockNum chainPruner <= LastPrunedBlockNum p' /\
    wg p' = wg chainPruner - 1 /\
    (true = true ->
     exists pre,
       (exists crit, logs = pre ++ [Stopped (LastPrunedBlockNum p') crit]) \/
       (exists rounds e, logs = pre ++ [Pruned rounds (Some e)])).
Proof.
  eexists _, _. split; [lazy; reflexivity | ]. split; [reflexivity | ].
  apply (pruningLoop_checkpoint_monotone 10
           [PruneTimer (Some {| Number := Some 100100 |}); SaveTimer; StopSignal]
           chainPruner _ _ true).
  - apply sample_u64. cbn. lia.
  - apply sample_u64. cbn. lia.
  - apply sample_u64. cbn. lia.
  - lazy. reflexivity.
Defined.

Lemma start_after_stop_witness :
  exists p' logs,
    pruningLoop 10 chainPruner
      [PruneTimer (Some {| Number := Some 100100 |}); SaveTimer; StopSignal] []
      = Ok (p', logs, true) /\
    10100 = LastPrunedBlockNum p' /\
    Start p' = Ok {| wg := wg p' + 1;
                     stop := stop p';
                     db := db p';
                     chain := chain p';
                     LastPrunedBlockNum := LastPrunedBlockNum p';
                     config := config p' |}.
Proof.
  eexists _, _. split; [lazy; reflexivity | ].
  eapply (start_after_stop 10
            [PruneTimer (Some {| Number := Some 100100 |}); SaveTimer; StopSignal]
            chainPruner _ _ _ 10100).
  - exact fullDb_getAfterPut.
  - apply sample_u64. cbn. lia.
  - apply sample_u64. cbn. lia.
  - apply sample_u64. cbn. lia.
  - lazy. reflexivity.
  - instantiate (1 := [_; _]). reflexivity.
Defined.

End WorkerExamples.

(** ** The rounds of a run that returns *)

Section RoundsOfRun.

Context {DB : Type} `{HD : Database DB} `{HU : Dbutils}.
Variable inv : DB -> Prop.
Hypothesis Hcommit : forall (d : DB) (b : MutBatch),
  inv d -> snd (Commit d b) = None /\ inv (fst (Commit d b)).

Lemma emptyRounds_ok (n : nat) :
  forall (d : DB) (rounds : list roundLog),
    inv d ->
    exists d',
      emptyRounds n d rounds =
        (d', rounds ++ repeat {| deletes := []; warned := []; committed := None |} n, None).
Proof.
  induction n as [ | n IH]; intros d rounds Hinv.
  - exists d. cbn [emptyRounds repeat]. rewrite app_nil_r. reflexivity.
  - cbn [emptyRounds]. destruct (Hcommit d (NewBatch d) Hinv) as [Hnone Hinv'].
    destruct (Commit d (NewBatch d)) as [d1 err1]. cbn [fst snd] in *. subst err1.
    destruct (IH d1 (rounds ++ [{| deletes := []; warned := []; committed := None |}]) Hinv')
      as (d' & ->).
    exists d'. rewrite <- app_assoc. reflexivity.
Qed.

(** X12.  Over a store whose commits succeed, when the groups fit the
    limit, the loop of [batchDelete] returns after one round that deletes
    all the keys of the four groups before the last in one batch, followed
    by one round with an empty batch for every key of [StorageChangeSet]
    but one: each storage change-set key costs a commit and deletes
    nothing. *)
Theorem one_empty_commit_per_storage_key (ks : keysToRemove) (lim : Z) (d : DB) :
  distinctBuckets ->
  Int.in_range lim ->
  groupsFit ks lim ->
  inv d ->
  exists fuel d' first,
    batchDelete_loop fuel (LimitIterator ks lim) d [] =
      Ok (d',
          first :: repeat {| deletes := []; warned := []; committed := None |}
                          (List.length (StorageChangeSet ks) - 1),
          None) /\
    map fst (deletes first) = keysInOrder ks /\
    committed first = None.
Proof.
  intros Hdistinct Hlim (Hpos & Hshort & Hlast) Hinv.
  pose proof (batchDelete_loop_short Hdistinct ks lim Hlim Hshort Hlast
                (S (S (List.length (remaining ks 0 0) + 2 * List.length (group ks 4))))
                d ltac:(lia)) as Hrun.
  cbv zeta in Hrun.
  set (batch := fst (issueDeletes (NewBatch d) (remaining ks 0 0))) in *.
  set (calls := snd (issueDeletes (NewBatch d) (remaining ks 0 0))) in *.
  destruct (Hcommit d batch Hinv) as [Hnone Hinv'].
  rewrite Hnone in Hrun.
  destruct (emptyRounds_ok (List.length (group ks 4) - 1) (fst (Commit d batch))
              [{| deletes := calls; warned := failedDeletes calls; committed := None |}]
              Hinv') as (d' & Hempty).
  rewrite Hempty in Hrun.
  eexists _, d', _. split; [exact Hrun | ]. cbn [deletes committed].
  split; [ | reflexivity].
  unfold calls. rewrite issueDeletes_keys. apply keysInOrder_remaining.
Qed.

End RoundsOfRun.

Section RoundsOfRunExamples.

Import Sample.

Lemma one_empty_commit_per_storage_key_witness :
  exists fuel d' first,
    batchDelete_loop fuel (LimitIterator (fst (collectKeys bothDb 0 10100)) 3) bothDb [] =
      Ok (d',
          first :: repeat {| deletes := []; warned := []; committed := None |}
                          (List.length (StorageChangeSet (fst (collectKeys bothDb 0 10100)))
                           - 1),
          None) /\
    map fst (deletes first) = keysInOrder (fst (collectKeys bothDb 0 10100)) /\
    committed first = None.
Proof.
  apply (one_empty_commit_per_storage_key (fun d => mem_failCommit d = None)).
  - intros d b Hok. cbn [Commit database]. unfold mem_commit. rewrite Hok.
    split; reflexivity.
  - exact sample_distinct.
  - unfold Int.in_range, Int.min_int, Int.max_int. lia.
  - split; [lia | split; [ | vm_compute; discriminate]].
    intros i Hi. destruct i as [ | [ | [ | [ | i]]]]; try lia; vm_compute; reflexivity.
  - reflexivity.
Defined.

End RoundsOfRunExamples.
